(** * my-3d-app: the warehouse-floor visualiser of [src/unnamed/part_000]

    A shallow embedding of the pure and state-passing parts of the React
    component file: [updateTransform] (the per-frame animator), the colour
    resolution inside [Shape], [expandGrid], and the handlers of [App]
    ([handleMove], [handleRotate], [toggleCar], [toggleError]) together with
    the frame loop that drives every [Shape]'s [useFrame] callback.
    [src/src/App.jsx] is an earlier version of the same file, without the
    error flag and the label; [updateTransform], [expandGrid] and the two
    handlers are the same in both.

    JavaScript numbers are IEEE-754 binary64 values.  The code is embedded
    once, over an interface [JsNumber] of the arithmetic it uses, and the
    interface has two instances:
    - [F64]: Rocq's primitive binary64 floats, i.e. the numbers the program
      really computes with; concrete runs are evaluated on it;
    - [Exact]: the rationals, i.e. the same code with rounding switched off;
      universally quantified arithmetic facts are proved on it.

    What the embedding takes from React and three.js:
    - [resolve] only queues a state update ([setMoving], [setRotating]);
      the entry leaves its map when React commits that update.  The
      callbacks of a frame ([frame_callbacks]) and the commit ([commit]) are
      embedded apart; [frame] is a frame whose updates are committed before
      anything else runs, and [frames_before_commit] are frames that run
      while the commit is still outstanding;
    - an update made in a click handler is committed before the next event,
      and every handler and callback sees the committed state;
    - the mesh of a rendered [Shape] is mounted whenever a frame runs, keeps
      its transform across renders, and starts with rotation 0;
    - whether [controls.update()] dispatches a 'change' event is decided
      by the orbit controls; it is an input of the double click;
    - an entry object is shared between the map and the callbacks, so an
      advance is visible through the map at once;
    - no box id is the name of a property of [Object.prototype]. *)

From Stdlib Require Import Ascii String QArith Qabs Qminmax Qround Floats Lqa DecimalString DecimalZ.
From stdpp Require Import gmap strings list.

Open Scope string_scope.
Open Scope list_scope.

(** ** The numbers of the program *)

Class JsNumber (N : Type) := {
  num_of_Z : Z -> N;            (* an integer literal or loop counter *)
  Math_PI : N;                  (* [Math.PI] *)
  num_eps : N;                  (* the literal [0.001] *)
  num_add : N -> N -> N;
  num_sub : N -> N -> N;
  num_mul : N -> N -> N;
  num_div : N -> N -> N;
  Math_abs : N -> N;
  Math_sign : N -> N;
  Math_min : N -> N -> N;
  num_lt : N -> N -> bool;      (* [a < b] *)
  num_is_zero : N -> bool;      (* [a === 0] *)
  num_isNaN : N -> bool;        (* [isNaN(a)] *)
}.

Module F64.

Definition of_Z (z : Z) : float :=
  match z with
  | Z0 => 0%float
  | Zpos p => PrimFloat.of_uint63 (Uint63.of_pos p)
  | Zneg p => PrimFloat.opp (PrimFloat.of_uint63 (Uint63.of_pos p))
  end.

(** [Math.sign]: 1, -1, or the argument itself for a zero or a NaN. *)
Definition sign (x : float) : float :=
  if PrimFloat.ltb 0 x then 1%float
  else if PrimFloat.ltb x 0 then (-1)%float
  else x.

(** [Math.min]: NaN when an argument is NaN, and -0 below +0. *)
Definition min (a b : float) : float :=
  if PrimFloat.is_nan a then a
  else if PrimFloat.is_nan b then b
  else if PrimFloat.ltb a b then a
  else if PrimFloat.ltb b a then b
  else if PrimFloat.get_sign a then a else b.

(** [Math.PI] and [0.001], written as the binary64 values they denote. *)
Definition PI : float := 0x1.921fb54442d18p+1%float.
Definition eps : float := 0x1.0624dd2f1a9fcp-10%float.

#[global] Instance number : JsNumber float := {|
  num_of_Z := of_Z;
  Math_PI := PI;
  num_eps := eps;
  num_add := PrimFloat.add;
  num_sub := PrimFloat.sub;
  num_mul := PrimFloat.mul;
  num_div := PrimFloat.div;
  Math_abs := PrimFloat.abs;
  Math_sign := sign;
  Math_min := min;
  num_lt := PrimFloat.ltb;
  num_is_zero := fun x => PrimFloat.eqb x 0;
  num_isNaN := PrimFloat.is_nan;
|}.

End F64.

Module Exact.

Definition sign (x : Q) : Q := inject_Z (Z.sgn (Qnum x)).

Definition lt (a b : Q) : bool := negb (Qle_bool b a).

(** The rational that the binary64 constant [Math.PI] is. *)
Definition PI : Q := 7074237752028440 # 2251799813685248.
Definition eps : Q := 1 # 1000.

#[global] Instance number : JsNumber Q := {|
  num_of_Z := inject_Z;
  Math_PI := PI;
  num_eps := eps;
  num_add := Qplus;
  num_sub := Qminus;
  num_mul := Qmult;
  num_div := Qdiv;
  Math_abs := Qabs;
  Math_sign := sign;
  Math_min := Qmin;
  num_lt := lt;
  num_is_zero := fun x => Qeq_bool x 0;
  num_isNaN := fun _ => false;
|}.

End Exact.

(** ** Scene data *)

(** The three options of the axis selector, used as [position[obj.axis]]. *)
Inductive Axis := AxisX | AxisY | AxisZ.

(** [type === 'move' ? ... : ...] *)
Inductive Kind := KMove | KRotate.

#[export] Instance Axis_eq_dec : EqDecision Axis.
Proof. solve_decision. Defined.

#[export] Instance Kind_eq_dec : EqDecision Kind.
Proof. solve_decision. Defined.

Section Scene.

Context {N : Type} `{JsNumber N}.

(** What [updateTransform] touches of [meshRef.current]. *)
Record Mesh := mkMesh {
  position_x : N;
  position_y : N;
  position_z : N;
  rotation_y : N;
}.

(** [moveObj] / [rotateObj].  [axis] is absent from a [rotateObj].  The
    closure [resolve] deletes the key it captured when the entry was made;
    it is represented by that key. *)
Record AnimObj := mkAnimObj {
  axis : option Axis;
  remaining : N;
  resolve : string;
}.

Definition position_get (m : Mesh) (a : Axis) : N :=
  match a with
  | AxisX => position_x m
  | AxisY => position_y m
  | AxisZ => position_z m
  end.

(** [mesh.position[a] += step] *)
Definition position_add (m : Mesh) (a : option Axis) (step : N) : Mesh :=
  match a with
  | Some AxisX => mkMesh (num_add (position_x m) step) (position_y m) (position_z m) (rotation_y m)
  | Some AxisY => mkMesh (position_x m) (num_add (position_y m) step) (position_z m) (rotation_y m)
  | Some AxisZ => mkMesh (position_x m) (position_y m) (num_add (position_z m) step) (rotation_y m)
  | None => m
  end.

(** [mesh.rotation.y += step] *)
Definition rotation_add (m : Mesh) (step : N) : Mesh :=
  mkMesh (position_x m) (position_y m) (position_z m) (num_add (rotation_y m) step).

Definition speed_of (type : Kind) : N :=
  match type with KMove => num_of_Z 1 | KRotate => Math_PI end.

(** [Math.sign(obj.remaining) * Math.min(Math.abs(obj.remaining), speed * delta)] *)
Definition step_of (type : Kind) (rem delta : N) : N :=
  num_mul (Math_sign rem) (Math_min (Math_abs rem) (num_mul (speed_of type) delta)).

(** [|obj.remaining| < 0.001] *)
Definition finished (rem : N) : bool := num_lt (Math_abs rem) num_eps.

(** [updateTransform(meshRef, obj, type, delta)].  The function mutates the
    mesh and the entry in place and may call [obj.resolve()]; the result is
    the mesh and the entry after the call, and whether [resolve] was
    called. *)
Definition updateTransform (meshRef : option Mesh) (obj : option AnimObj)
    (type : Kind) (delta : N) : option Mesh * option AnimObj * bool :=
  match obj, meshRef with
  | Some o, Some m =>
      let step := step_of type (remaining o) delta in
      let m' := match type with
                | KMove => position_add m (axis o) step
                | KRotate => rotation_add m step
                end in
      let o' := mkAnimObj (axis o) (num_sub (remaining o) step) (resolve o) in
      (Some m', Some o', finished (remaining o'))
  | _, _ => (meshRef, obj, false)
  end.

End Scene.

Arguments Mesh N : clear implicits.
Arguments AnimObj N : clear implicits.

(** ** JSON values of the static scene description *)

(** The values a grid cell or a row label can hold.  JSON numbers are
    restricted to integers here; that covers row indices and the
    occupancy marks. *)
Inductive JsValue :=
  | JUndefined
  | JNull
  | JBool (b : bool)
  | JNum (z : Z)
  | JStr (s : string).

#[export] Instance JsValue_eq_dec : EqDecision JsValue.
Proof. solve_decision. Defined.

(** ToBoolean *)
Definition truthy (v : JsValue) : bool :=
  match v with
  | JUndefined | JNull => false
  | JBool b => b
  | JNum z => negb (z =? 0)%Z
  | JStr s => negb (String.eqb s "")
  end.

(** [a || b] *)
Definition js_or (a b : JsValue) : JsValue := if truthy a then a else b.

Definition String_of_Z (z : Z) : string := NilEmpty.string_of_int (Z.to_int z).
Definition String_of_nat (n : nat) : string := String_of_Z (Z.of_nat n).

(** ToString, as a template literal applies it. *)
Definition ToString (v : JsValue) : string :=
  match v with
  | JUndefined => "undefined"
  | JNull => "null"
  | JBool true => "true"
  | JBool false => "false"
  | JNum z => String_of_Z z
  | JStr s => s
  end.

Section Grid.

Context {N : Type} `{JsNumber N}.

(** A box descriptor; the constant field [type: 'box'] is left out. *)
Record Box := mkBox {
  box_id : string;
  box_x : N;
  box_y : N;
  box_z : N;
  box_width : N;
  box_height : N;
  box_depth : N;
  box_color : option string;
}.

(** [floor.box] *)
Record BoxTemplate := mkBoxTemplate {
  tpl_width : N;
  tpl_height : N;
  tpl_depth : N;
  tpl_color : option string;
}.

(** A grid item of [model.json]. *)
Record Floor := mkFloor {
  rows : nat;
  cols : nat;
  grid : list (list JsValue);
  rowLabels : option (list JsValue);
  cellWidth : N;
  cellDepth : N;
  floor_y : N;
  floor_box : BoxTemplate;
}.

(** [floor.rowLabels?.[r]] *)
Definition rowLabels_at (floor : Floor) (r : nat) : JsValue :=
  match rowLabels floor with
  | None => JUndefined
  | Some labels => default JUndefined (labels !! r)
  end.

(** [floor.rowLabels?.[r] || r] *)
Definition rowLabel (floor : Floor) (r : nat) : JsValue :=
  js_or (rowLabels_at floor r) (JNum (Z.of_nat r)).

(** [`${rowLabel}${colLabel}`] with [colLabel = String(c + 1)] *)
Definition cell_id (floor : Floor) (r c : nat) : string :=
  ToString (rowLabel floor r) +:+ String_of_nat (c + 1).

Definition num_of_nat (n : nat) : N := num_of_Z (Z.of_nat n).

(** The object pushed for cell (r, c). *)
Definition cell_box (floor : Floor) (r c : nat) : Box :=
  mkBox (cell_id floor r c)
    (num_add (num_mul (num_of_nat c) (cellWidth floor))
             (num_div (cellWidth floor) (num_of_Z 2)))
    (floor_y floor)
    (num_add (num_mul (num_of_nat r) (cellDepth floor))
             (num_div (cellDepth floor) (num_of_Z 2)))
    (tpl_width (floor_box floor))
    (tpl_height (floor_box floor))
    (tpl_depth (floor_box floor))
    (tpl_color (floor_box floor)).

(** One iteration of the inner loop body.  [floor.grid[r]] is [undefined]
    beyond the last row, and indexing it throws a TypeError ([None]);
    [row[c]] beyond the row's end is [undefined], which is not [1]. *)
Definition expandCell (floor : Floor) (rc : nat * nat) : option (list Box) :=
  match grid floor !! rc.1 with
  | None => None
  | Some row =>
      Some (if decide (default JUndefined (row !! rc.2) = JNum 1)
            then [cell_box floor rc.1 rc.2] else [])
  end.

(** The iteration space of the two nested loops, in execution order. *)
Definition cells (nrows ncols : nat) : list (nat * nat) :=
  r ← seq 0 nrows; c ← seq 0 ncols; [(r, c)].

Definition expandGrid (floor : Floor) : option (list Box) :=
  mjoin <$> mapM (expandCell floor) (cells (rows floor) (cols floor)).

(** ** Colour resolution of [Shape] *)

(** [flags[id]] used as a condition: absent keys are [undefined]. *)
Definition flag (flags : gmap string bool) (id : string) : bool :=
  default false (flags !! id).

(** [box.color || 'limegreen'] *)
Definition base_color (box : Box) : string :=
  match box_color box with
  | Some c => if String.eqb c "" then "limegreen" else c
  | None => "limegreen"
  end.

(** The value of [color] handed to [meshStandardMaterial] in one render
    of [Shape], given the props and the component's [blink] state. *)
Definition Shape_color (box : Box) (isSelected : bool)
    (carsOnBoxes errorBoxes : gmap string bool) (blink : bool) : string :=
  let color := base_color box in
  let color := if flag carsOnBoxes (box_id box) then "lightgray" else color in
  let color := if isSelected then "yellow" else color in
  if flag errorBoxes (box_id box)
  then (if blink then "firebrick" else color)
  else color.

End Grid.

Arguments Box N : clear implicits.
Arguments BoxTemplate N : clear implicits.
Arguments Floor N : clear implicits.

(** ** The state of [App] and its handlers *)

Section App.

Context {N : Type} `{JsNumber N}.

(** The builtin [parseFloat]; [None] stands for the result NaN. *)
Variable parseFloat : string -> option N.

(** The [useState] cells of [App], the mesh of every rendered [Shape]
    (one per box item, in item order), and two logs that record the
    observable calls: the messages passed to [alert] and the [resolve]
    callbacks invoked, oldest first. *)
Record AppState := mkApp {
  selectedBoxId : option string;
  axis_sel : Axis;
  distance : string;
  moving : gmap string (AnimObj N);
  rotating : gmap string (AnimObj N);
  carsOnBoxes : gmap string bool;
  errorBoxes : gmap string bool;
  labelBoxId : option string;
  shapes : list (string * Mesh N);
  alerts : list string;
  calls : list (Kind * string);
}.

Definition initial (items : list (Box N)) : AppState :=
  mkApp None AxisX "0" ∅ ∅ ∅ ∅ None
    ((λ b, (box_id b, mkMesh (box_x b) (box_y b) (box_z b) (num_of_Z 0))) <$> items)
    [] [].

Definition set_moving (m : gmap string (AnimObj N)) (st : AppState) : AppState :=
  mkApp (selectedBoxId st) (axis_sel st) (distance st) m (rotating st)
    (carsOnBoxes st) (errorBoxes st) (labelBoxId st) (shapes st) (alerts st) (calls st).

Definition set_rotating (m : gmap string (AnimObj N)) (st : AppState) : AppState :=
  mkApp (selectedBoxId st) (axis_sel st) (distance st) (moving st) m
    (carsOnBoxes st) (errorBoxes st) (labelBoxId st) (shapes st) (alerts st) (calls st).

(** [alert(msg)] *)
Definition alert (msg : string) (st : AppState) : AppState :=
  mkApp (selectedBoxId st) (axis_sel st) (distance st) (moving st) (rotating st)
    (carsOnBoxes st) (errorBoxes st) (labelBoxId st) (shapes st)
    (alerts st ++ [msg]) (calls st).

(** The selected id when [!selectedBoxId] is false: [null] and the empty
    string (the selector's "--None--" option) are both falsy. *)
Definition selected (st : AppState) : option string :=
  match selectedBoxId st with
  | Some id => if String.eqb id "" then None else Some id
  | None => None
  end.

(** [m[id]] used as a condition: an entry is an object, hence truthy. *)
Definition live (m : gmap string (AnimObj N)) (id : string) : bool :=
  bool_decide (is_Some (m !! id)).

Definition handleMove (st : AppState) : AppState :=
  match selected st with
  | None => alert "No pallet selected!" st
  | Some id =>
      match parseFloat (distance st) with
      | None => st
      | Some dist =>
          if num_isNaN dist || num_is_zero dist then st
          else if live (moving st) id || live (rotating st) id then st
          else set_moving
                 (<[id := mkAnimObj (Some (axis_sel st)) dist id]> (moving st)) st
      end
  end.

Definition handleRotate (st : AppState) : AppState :=
  match selected st with
  | None => alert "No pallet selected!" st
  | Some id =>
      if live (rotating st) id || live (moving st) id then st
      else set_rotating (<[id := mkAnimObj None Math_PI id]> (rotating st)) st
  end.

(** [{ ...prev, [boxId]: !prev[boxId] }] *)
Definition toggle (boxId : string) (flags : gmap string bool) : gmap string bool :=
  <[boxId := negb (flag flags boxId)]> flags.

Definition toggleCar (boxId : string) (st : AppState) : AppState :=
  mkApp (selectedBoxId st) (axis_sel st) (distance st) (moving st) (rotating st)
    (toggle boxId (carsOnBoxes st)) (errorBoxes st) (labelBoxId st) (shapes st)
    (alerts st) (calls st).

Definition toggleError (boxId : string) (st : AppState) : AppState :=
  mkApp (selectedBoxId st) (axis_sel st) (distance st) (moving st) (rotating st)
    (carsOnBoxes st) (toggle boxId (errorBoxes st)) (labelBoxId st) (shapes st)
    (alerts st) (calls st).

(** The two toggle buttons' [onClick]. *)
Definition clickToggle (f : string -> AppState -> AppState) (st : AppState) : AppState :=
  match selected st with
  | None => alert "No pallet selected!" st
  | Some id => f id st
  end.

Definition set_label (l : option string) (st : AppState) : AppState :=
  mkApp (selectedBoxId st) (axis_sel st) (distance st) (moving st) (rotating st)
    (carsOnBoxes st) (errorBoxes st) l (shapes st) (alerts st) (calls st).

(** The listener of the controls' 'change' event: [setLabelBoxId(null)]. *)
Definition clearLabel (st : AppState) : AppState := set_label None st.

(** [meshRef.current] of the [Shape] of box [id], which is what its
    [handleDoubleClick] passes on; nothing when no such [Shape] is
    rendered. *)
Definition meshRef_of (id : string) (st : AppState) : option (Mesh N) :=
  snd <$> head (filter (λ s, s.1 = id) (shapes st)).

(** [handleZoomToBox(mesh, boxId)].  [controls] tells whether
    [controlsRef.current] is set.  The camera pose written into the controls
    is not part of the state; [change] tells whether [controls.update()]
    dispatches 'change' to the [clearLabel] listener, which happens, with
    the listener attached, when the pose written differs from the one the
    controls had.  The two updates of [labelBoxId] are applied in the order
    they are queued: [null] first, then
    [prev => prev === boxId ? null : boxId]. *)
Definition handleZoomToBox (controls change : bool) (mesh : option (Mesh N))
    (boxId : string) (st : AppState) : AppState :=
  match controls, mesh with
  | true, Some _ =>
      let st := if change then clearLabel st else st in
      set_label (if decide (labelBoxId st = Some boxId) then None else Some boxId) st
  | _, _ => st
  end.

(** *** One animation frame *)

(** The maps as the [useFrame] callbacks see and mutate them during one
    frame, and the [resolve] calls made so far in it.  An entry is a shared
    object: advancing it is visible through the map at once, whereas the
    state update queued by [resolve] is applied when React commits it. *)
Record Tick := mkTick {
  tick_moving : gmap string (AnimObj N);
  tick_rotating : gmap string (AnimObj N);
  tick_calls : list (Kind * string);
}.

Definition store (id : string) (o : option (AnimObj N))
    (m : gmap string (AnimObj N)) : gmap string (AnimObj N) :=
  match o with Some o' => <[id := o']> m | None => m end.

Definition called (type : Kind) (c : bool) (o : option (AnimObj N)) : list (Kind * string) :=
  match o with
  | Some o' => if c then [(type, resolve o')] else []
  | None => []
  end.

(** The [useFrame] callback of the [Shape] of box [id]. *)
Definition Shape_useFrame (delta : N) (id : string) (mesh : Mesh N) (t : Tick)
    : Mesh N * Tick :=
  let '(m1, o1, c1) := updateTransform (Some mesh) (tick_moving t !! id) KMove delta in
  let '(m2, o2, c2) := updateTransform m1 (tick_rotating t !! id) KRotate delta in
  (default mesh m2,
   mkTick (store id o1 (tick_moving t)) (store id o2 (tick_rotating t))
          (tick_calls t ++ called KMove c1 o1 ++ called KRotate c2 o2)).

Fixpoint useFrame_all (delta : N) (l : list (string * Mesh N)) (t : Tick)
    : list (string * Mesh N) * Tick :=
  match l with
  | [] => ([], t)
  | (id, mesh) :: rest =>
      let '(mesh', t1) := Shape_useFrame delta id mesh t in
      let '(rest', t2) := useFrame_all delta rest t1 in
      ((id, mesh') :: rest', t2)
  end.

(** The callbacks of one frame: every [Shape]'s [useFrame] callback runs,
    in render order.  They step the meshes and the entries and call
    [resolve]; [resolve] only queues an update of [moving] or [rotating], so
    no entry leaves its map here.  The result is the state the callbacks
    leave and the updates they queued, oldest first. *)
Definition frame_callbacks (delta : N) (st : AppState)
    : AppState * list (Kind * string) :=
  let '(shapes', t) :=
    useFrame_all delta (shapes st) (mkTick (moving st) (rotating st) []) in
  (mkApp (selectedBoxId st) (axis_sel st) (distance st)
     (tick_moving t) (tick_rotating t)
     (carsOnBoxes st) (errorBoxes st) (labelBoxId st) shapes'
     (alerts st) (calls st ++ tick_calls t),
   tick_calls t).

(** The queued [setMoving] / [setRotating] updaters: each deletes the key
    its closure captured. *)
Definition flush (type : Kind) (cs : list (Kind * string))
    (m : gmap string (AnimObj N)) : gmap string (AnimObj N) :=
  foldl (λ m c, if decide (c.1 = type) then delete c.2 m else m) m cs.

(** React commits the queued updates. *)
Definition commit (queued : list (Kind * string)) (st : AppState) : AppState :=
  mkApp (selectedBoxId st) (axis_sel st) (distance st)
    (flush KMove queued (moving st)) (flush KRotate queued (rotating st))
    (carsOnBoxes st) (errorBoxes st) (labelBoxId st) (shapes st)
    (alerts st) (calls st).

(** A frame whose updates React commits before the next frame or event:
    the callbacks, then the commit of what they queued. *)
Definition frame (delta : N) (st : AppState) : AppState :=
  let '(st', queued) := frame_callbacks delta st in commit queued st'.

(** Frames that run while React has not committed anything yet: the
    callbacks of each, one after the other. *)
Definition frames_before_commit (deltas : list N) (st : AppState) : AppState :=
  foldl (λ st delta, (frame_callbacks delta st).1) st deltas.

(** *** Events *)

Inductive Event :=
  | Select (id : string)          (* click on a box, or the pallet selector *)
  | SetAxis (a : Axis)
  | SetDistance (text : string)
  | ClickMove
  | ClickRotate
  | ClickToggleCar
  | ClickToggleError
  | DoubleClick (id : string) (controls change : bool)   (* on the box's mesh *)
  | CameraChange                  (* 'change' from the orbit controls *)
  | Frame (delta : N).             (* a frame, committed before the next event *)

Definition handle (st : AppState) (e : Event) : AppState :=
  match e with
  | Select id =>
      mkApp (Some id) (axis_sel st) (distance st) (moving st) (rotating st)
        (carsOnBoxes st) (errorBoxes st) (labelBoxId st) (shapes st)
        (alerts st) (calls st)
  | SetAxis a =>
      mkApp (selectedBoxId st) a (distance st) (moving st) (rotating st)
        (carsOnBoxes st) (errorBoxes st) (labelBoxId st) (shapes st)
        (alerts st) (calls st)
  | SetDistance text =>
      mkApp (selectedBoxId st) (axis_sel st) text (moving st) (rotating st)
        (carsOnBoxes st) (errorBoxes st) (labelBoxId st) (shapes st)
        (alerts st) (calls st)
  | ClickMove => handleMove st
  | ClickRotate => handleRotate st
  | ClickToggleCar => clickToggle toggleCar st
  | ClickToggleError => clickToggle toggleError st
  | DoubleClick id controls change =>
      handleZoomToBox controls change (meshRef_of id st) id st
  | CameraChange => clearLabel st
  | Frame delta => frame delta st
  end.

Definition run (evs : list Event) (st : AppState) : AppState := foldl handle st evs.

(** Frames only, each committed before the next, as while the user watches
    an animation. *)
Definition frames (deltas : list N) (st : AppState) : AppState :=
  foldl (λ st delta, frame delta st) st deltas.

(** How often [resolve] of the [type] entry of box [id] has been called. *)
Definition resolve_count (type : Kind) (id : string) (st : AppState) : nat :=
  length (filter (λ c, c = (type, id)) (calls st)).

End App.

Arguments AppState N : clear implicits.
Arguments Event N : clear implicits.
Arguments Tick N : clear implicits.

(** ** A [parseFloat] for plain decimal notation

    Sign, digits, optional fraction; parsing stops at the first other
    character, and no digit at all gives NaN.  Exponents, leading blanks and
    [Infinity] are not covered.  The quotient of the two integers is the
    correctly rounded value as long as both are below 2^53. *)

Definition digit (a : ascii) : option Z :=
  let n := nat_of_ascii a in
  if (48 <=? n)%nat && (n <=? 57)%nat then Some (Z.of_nat (n - 48)) else None.

Fixpoint digits (s : string) (acc : Z) (count : nat) : Z * nat * string :=
  match s with
  | String a s' =>
      match digit a with
      | Some d => digits s' (10 * acc + d)%Z (S count)
      | None => (acc, count, s)
      end
  | EmptyString => (acc, count, s)
  end.

Definition parseFloat_decimal {N : Type} `{JsNumber N} (s : string) : option N :=
  let '(neg, s1) := match s with
                    | String "-" s' => (true, s')
                    | String "+" s' => (false, s')
                    | _ => (false, s)
                    end in
  let '(ip, ni, s2) := digits s1 0 0 in
  let '(fp, nf, _) := match s2 with
                      | String "." s' => digits s' ip 0
                      | _ => (ip, 0%nat, s2)
                      end in
  if (ni + nf =? 0)%nat then None
  else Some (num_div (num_of_Z (if neg then - fp else fp)%Z) (num_of_Z (10 ^ Z.of_nat nf))).

(** ** Notions used to state the properties *)

Section Derived.

Context {N : Type} `{JsNumber N}.

(** [floor.grid[r][c] === 1], for a cell inside the grid array. *)
Definition occupied (floor : Floor N) (rc : nat * nat) : Prop :=
  grid floor !! rc.1 ≫= (.!! rc.2) = Some (JNum 1).

#[export] Instance occupied_dec floor rc : Decision (occupied floor rc).
Proof. unfold occupied. apply _. Defined.

(** The entry after one call of [updateTransform]. *)
Definition advance (type : Kind) (delta : N) (o : AnimObj N) : AnimObj N :=
  mkAnimObj (axis o) (num_sub (remaining o) (step_of type (remaining o) delta)) (resolve o).

(** The mesh after the two calls in a [useFrame] callback. *)
Definition mesh_after (delta : N) (mesh : Mesh N) (om or : option (AnimObj N)) : Mesh N :=
  let m1 := match om with
            | Some o => position_add mesh (axis o) (step_of KMove (remaining o) delta)
            | None => mesh
            end in
  match or with
  | Some o => rotation_add m1 (step_of KRotate (remaining o) delta)
  | None => m1
  end.

(** The [resolve] call made for an entry in a frame, if any. *)
Definition fired (type : Kind) (delta : N) (o : option (AnimObj N)) : list (Kind * string) :=
  match o with
  | Some o => if finished (remaining (advance type delta o)) then [(type, resolve o)] else []
  | None => []
  end.

(** The entry as the next frame finds it: advanced, or gone once its
    [resolve] has been called. *)
Definition after (type : Kind) (delta : N) (o : option (AnimObj N)) : option (AnimObj N) :=
  match o with
  | Some o => if finished (remaining (advance type delta o)) then None
              else Some (advance type delta o)
  | None => None
  end.

(** [moving] or [rotating], by kind. *)
Definition entries (type : Kind) (st : AppState N) : gmap string (AnimObj N) :=
  match type with KMove => moving st | KRotate => rotating st end.

Definition pick (type : Kind) (m r : gmap string (AnimObj N)) : gmap string (AnimObj N) :=
  match type with KMove => m | KRotate => r end.

(** The part of the mesh that an animation of the given kind writes. *)
Definition pose_of (type : Kind) (mesh : Mesh N) : list N :=
  match type with
  | KMove => [position_x mesh; position_y mesh; position_z mesh]
  | KRotate => [rotation_y mesh]
  end.

Definition shape_after (delta : N) (m r : gmap string (AnimObj N))
    (s : string * Mesh N) : string * Mesh N :=
  (s.1, mesh_after delta s.2 (m !! s.1) (r !! s.1)).

Definition shape_fired (delta : N) (m r : gmap string (AnimObj N))
    (s : string * Mesh N) : list (Kind * string) :=
  fired KMove delta (m !! s.1) ++ fired KRotate delta (r !! s.1).

(** The mesh of one shape and the two entries of its id, frame by frame. *)
Definition track_step (delta : N)
    (x : Mesh N * option (AnimObj N) * option (AnimObj N))
    : Mesh N * option (AnimObj N) * option (AnimObj N) :=
  (mesh_after delta x.1.1 x.1.2 x.2, after KMove delta x.1.2, after KRotate delta x.2).

Definition track (deltas : list N)
    (x : Mesh N * option (AnimObj N) * option (AnimObj N))
    : Mesh N * option (AnimObj N) * option (AnimObj N) :=
  foldl (λ x delta, track_step delta x) x deltas.

(** Every entry sits under the key its [resolve] closure deletes. *)
Definition well_keyed (m : gmap string (AnimObj N)) : Prop :=
  forall k o, m !! k = Some o -> resolve o = k.

(** The scene has one [Shape] per id, and the maps are well keyed. *)
Definition well_formed (st : AppState N) : Prop :=
  NoDup (shapes st).*1 /\ well_keyed (moving st) /\ well_keyed (rotating st).

(** No box ever has a move entry and a rotate entry at once. *)
Definition exclusive (st : AppState N) : Prop :=
  forall id, moving st !! id = None \/ rotating st !! id = None.

End Derived.

(** A frame count as a rational. *)
Definition Qnat (n : nat) : Q := inject_Z (Z.of_nat n).

(** ** Sample data for the concrete runs *)

Module Sample.

Definition palletQ : Box Q := (mkBox "A1" 5 0 5 8 1 8 None)%Q.
Definition palletF : Box float := (mkBox "A1" 5 0 5 8 1 8 None)%float.

Definition on_A1 : gmap string bool := {["A1" := true]}.

(** "Select box A1, set axis y, distance 5", before Move is clicked. *)
Definition readyQ : AppState Q :=
  run parseFloat_decimal [Select "A1"; SetAxis AxisY; SetDistance "5"]
    (initial [palletQ]).

(** One long frame of 4095/4096 s, a number that binary64 holds exactly. *)
Definition long_frame : float := 0.999755859375%float.

(** Move A1 by 1 along x, then one long frame. *)
Definition short_move : AppState float :=
  run parseFloat_decimal
    [Select "A1"; SetDistance "1"; ClickMove; Frame long_frame]
    (initial [palletF]).

(** Rotate A1 twice, one long frame each. *)
Definition two_turns : AppState float :=
  run parseFloat_decimal
    [Select "A1"; ClickRotate; Frame long_frame; ClickRotate; Frame long_frame]
    (initial [palletF]).

(** A move of A1 by 1 along x has been requested. *)
Definition unit_move : AppState float :=
  run parseFloat_decimal [Select "A1"; SetDistance "1"; ClickMove]
    (initial [palletF]).

(** The same move, then one long frame whose callbacks have run while React
    has not committed, and a second one. *)
Definition late_once : AppState float := frames_before_commit [long_frame] unit_move.
Definition late_twice : AppState float :=
  frames_before_commit [long_frame; long_frame] unit_move.

(** A scene in which two boxes carry the id A1: the move, then one frame. *)
Definition twins_move : AppState float :=
  run parseFloat_decimal
    [Select "A1"; SetDistance "1"; ClickMove; Frame long_frame]
    (initial [palletF; palletF]).

(** A move of A1 by 10^15 has been requested. *)
Definition far_move : AppState float :=
  run parseFloat_decimal
    [Select "A1"; SetDistance "1000000000000000"; ClickMove]
    (initial [palletF]).

(** The 2x2 grid of the specification's example, with row labels of which
    the first is the empty string. *)
Definition floorQ : Floor Q :=
  (mkFloor 2 2 [[JNum 1; JNum 0]; [JNum 0; JNum 1]] (Some [JStr ""; JStr "B"])
     10 10 0 (mkBoxTemplate 8 1 8 None))%Q.

End Sample.

(** ** The rest of the component file *)

Section Rest.

Context {N : Type} `{JsNumber N}.

(** An item of [model.json], by its [type] field.  A polyline is a list of
    points [[x, y, z]]. *)
Inductive Item :=
  | IGrid (floor : Floor N)
  | IBox (box : Box N)
  | ILines (id : string) (segments : list (list (N * N * N))) (color : option string)
  | ICircle (id : string) (center : N * N * N) (radius : N) (segments : Z)
      (color : option string)
  | IOther (type : string).

(** The body of [modelData.forEach] in the initialiser of [items]:
    [expanded.push(...expandGrid(item))] for a grid, [expanded.push(item)]
    otherwise. *)
Definition expandItem (item : Item) : option (list Item) :=
  match item with
  | IGrid floor => fmap (M := list) IBox <$> expandGrid floor
  | _ => Some [item]
  end.

(** The initialiser of [items]; [None] when an [expandGrid] throws. *)
Definition expandItems (modelData : list Item) : option (list Item) :=
  mjoin <$> mapM expandItem modelData.

(** The items rendered as a [Shape], i.e. those with [type === 'box']. *)
Definition boxes_of (items : list Item) : list (Box N) :=
  omap (λ item, match item with IBox box => Some box | _ => None end) items.

(** The options of the pallet selector after "--None--". *)
Definition selector_options (items : list Item) : list string :=
  box_id <$> boxes_of items.

(** The floating label of a [Shape]: nothing unless [labelBoxId === box.id],
    else the id and the message
    [carsOnBoxes[box.id] ? "Car Present" : null]. *)
Definition Shape_label (box : Box N) (labelBoxId : option string)
    (carsOnBoxes : gmap string bool) : option (string * option string) :=
  if decide (labelBoxId = Some (box_id box))
  then Some (box_id box,
             if flag carsOnBoxes (box_id box) then Some "Car Present" else None)
  else None.

(** The property key that [selectedBoxId] is used as in
    [carsOnBoxes[selectedBoxId]]: [null] becomes the key "null". *)
Definition selected_key (st : AppState N) : string :=
  default "null" (selectedBoxId st).

(** The captions of the two toggle buttons. *)
Definition car_button (st : AppState N) : string :=
  if flag (carsOnBoxes st) (selected_key st) then "Remove Car" else "Add Car".

Definition error_button (st : AppState N) : string :=
  if flag (errorBoxes st) (selected_key st) then "Remove Error" else "Add Error".

(** [Math.cos] and [Math.sin]. *)
Variable Math_cos Math_sin : N -> N.

(** The [points] array of [Circle].  The loop runs for i = 0 .. segments,
    and not at all for a negative [segments]. *)
Definition Circle_point (center : N * N * N) (radius : N) (segments : Z) (i : nat)
    : N * N * N :=
  let angle := num_mul (num_mul (num_div (num_of_nat i) (num_of_Z segments)) Math_PI)
                 (num_of_Z 2) in
  (num_add center.1.1 (num_mul radius (Math_cos angle)),
   center.1.2,
   num_add center.2 (num_mul radius (Math_sin angle))).

Definition Circle_points (center : N * N * N) (radius : N) (segments : Z)
    : list (N * N * N) :=
  Circle_point center radius segments <$> seq 0 (Z.to_nat (segments + 1)).

End Rest.

Arguments Item N : clear implicits.

(** The colour resolution of [Shape] in the earlier version,
    [src/src/App.jsx]: no error flag, and a car makes the box orange. *)
Module AppJsx.

Definition Shape_color {N : Type} (box : Box N) (isSelected : bool)
    (carsOnBoxes : gmap string bool) : string :=
  let color := base_color box in
  let color := if flag carsOnBoxes (box_id box) then "orange" else color in
  if isSelected then "yellow" else color.

End AppJsx.

(** More sample data. *)
Module Demo.

(** A 12 x 11 grid without row labels in which every cell is occupied. *)
Definition hallQ : Floor Q :=
  (mkFloor 12 11 (replicate 12 (replicate 11 (JNum 1))) None 10 10 0
     (mkBoxTemplate 8 1 8 None))%Q.

(** A model with a literal box before and a polyline after a 2 x 2 grid. *)
Definition modelQ : list (Item Q) :=
  [IBox Sample.palletQ; IGrid Sample.floorQ;
   ILines "aisle" [[(0, 0, 0); (20, 0, 0)]]%Q (Some "white")].

(** A1 with a car on it and its label shown. *)
Definition labelledQ : AppState Q :=
  run parseFloat_decimal [Select "A1"; ClickToggleCar; DoubleClick "A1" true true]
    (initial [Sample.palletQ]).

End Demo.

(** ** Notions for following one animation *)

Section Following.

Context {N : Type} `{JsNumber N}.

(** The coordinate an animation of the given kind writes: the position
    along [a] for a move, the Y rotation for a rotation. *)
Definition coordinate (type : Kind) (a : Axis) (mesh : Mesh N) : N :=
  match type with
  | KMove => position_get mesh a
  | KRotate => rotation_y mesh
  end.

(** A shape with one entry of the given kind and none of the other. *)
Definition alone (type : Kind) (mesh : Mesh N) (o : AnimObj N)
    : Mesh N * option (AnimObj N) * option (AnimObj N) :=
  match type with
  | KMove => (mesh, Some o, None)
  | KRotate => (mesh, None, Some o)
  end.

Definition entry_of (type : Kind)
    (x : Mesh N * option (AnimObj N) * option (AnimObj N)) : option (AnimObj N) :=
  match type with KMove => x.1.2 | KRotate => x.2 end.

(** The entry after the callbacks of several frames. *)
Definition advances (type : Kind) (deltas : list N) (o : AnimObj N) : AnimObj N :=
  foldl (λ o delta, advance type delta o) o deltas.

(** How many of these frames call [resolve] of the entry: those whose step
    leaves |remaining| < 0.001. *)
Fixpoint resolved_in (type : Kind) (deltas : list N) (o : AnimObj N) : nat :=
  match deltas with
  | [] => 0
  | delta :: rest =>
      (if finished (remaining (advance type delta o)) then 1 else 0)
      + resolved_in type rest (advance type delta o)
  end.

End Following.

(** The time that a list of frames takes. *)
Definition Qsum (deltas : list Q) : Q := foldr Qplus 0%Q deltas.

(** * Properties *)

(** ** Colour resolution *)

Section ColourFacts.

Context {N : Type} `{JsNumber N}.

(** The four assignments of [Shape], read as one decision list: the error
    branch is the last assignment, so it is the one that wins. *)
Lemma Shape_color_cases (box : Box N) (isSelected : bool)
    (carsOnBoxes errorBoxes : gmap string bool) (blink : bool) :
  Shape_color box isSelected carsOnBoxes errorBoxes blink =
    if flag errorBoxes (box_id box) && blink then "firebrick"
    else if isSelected then "yellow"
    else if flag carsOnBoxes (box_id box) then "lightgray"
    else base_color box.
Proof.
  unfold Shape_color.
  destruct (flag errorBoxes (box_id box)), blink, isSelected,
    (flag carsOnBoxes (box_id box)); reflexivity.
Qed.

End ColourFacts.

(** C1, as stated, fails: a box that is selected, car-present and in error
    state is rendered in the alarm colour while [blink] is on. *)
Lemma Shape_color_selected_blink_on :
  Shape_color Sample.palletQ true Sample.on_A1 Sample.on_A1 true = "firebrick"
  /\ Shape_color Sample.palletQ true Sample.on_A1 Sample.on_A1 true <> "yellow".
Proof. split; [reflexivity | discriminate]. Qed.

(** C1, amended: for a box that is selected, car-present and in error state
    the colour is 'yellow' while [blink] is off and 'firebrick' while it is
    on; in general the order of precedence is base colour < car-present <
    selection < error blink. *)
Theorem Shape_color_selected_error {N : Type} `{JsNumber N} (box : Box N)
    (carsOnBoxes errorBoxes : gmap string bool) (blink : bool) :
  carsOnBoxes !! box_id box = Some true ->
  errorBoxes !! box_id box = Some true ->
  Shape_color box true carsOnBoxes errorBoxes blink
    = (if blink then "firebrick" else "yellow")
  /\ (forall isSelected cars errs b,
        Shape_color box isSelected cars errs b =
          if flag errs (box_id box) && b then "firebrick"
          else if isSelected then "yellow"
          else if flag cars (box_id box) then "lightgray"
          else base_color box).
Proof.
  intros Hcar Herr. split.
  - rewrite Shape_color_cases. unfold flag. rewrite Herr. simpl.
    destruct blink; reflexivity.
  - intros. apply Shape_color_cases.
Qed.

Lemma Shape_color_selected_error_witness :
  Shape_color Sample.palletQ true Sample.on_A1 Sample.on_A1 false = "yellow".
Proof.
  apply (Shape_color_selected_error Sample.palletQ Sample.on_A1 Sample.on_A1 false);
    reflexivity.
Defined.

(** ** What one frame does *)

Section FrameFacts.

Context {N : Type} `{JsNumber N}.

Lemma updateTransform_absent (meshRef : option (Mesh N)) type delta :
  updateTransform meshRef None type delta = (meshRef, None, false).
Proof. reflexivity. Qed.

Lemma updateTransform_present (m : Mesh N) (o : AnimObj N) type delta :
  updateTransform (Some m) (Some o) type delta =
    (Some (match type with
           | KMove => position_add m (axis o) (step_of type (remaining o) delta)
           | KRotate => rotation_add m (step_of type (remaining o) delta)
           end),
     Some (advance type delta o),
     finished (remaining (advance type delta o))).
Proof. reflexivity. Qed.

Lemma store_alter (f : AnimObj N -> AnimObj N) (id : string)
    (m : gmap string (AnimObj N)) :
  store id (f <$> m !! id) m = alter f id m.
Proof.
  apply map_eq. intros k. rewrite lookup_alter.
  destruct (m !! id) as [o|] eqn:E; simpl.
  - rewrite lookup_insert. by case_decide.
  - case_decide; subst; done.
Qed.

Lemma Shape_useFrame_eq delta id (mesh : Mesh N) (t : Tick N) :
  Shape_useFrame delta id mesh t =
    (mesh_after delta mesh (tick_moving t !! id) (tick_rotating t !! id),
     mkTick (alter (advance KMove delta) id (tick_moving t))
            (alter (advance KRotate delta) id (tick_rotating t))
            (tick_calls t ++ fired KMove delta (tick_moving t !! id)
                          ++ fired KRotate delta (tick_rotating t !! id))).
Proof.
  unfold Shape_useFrame. rewrite <- !store_alter.
  destruct (tick_moving t !! id) as [om|], (tick_rotating t !! id) as [or|];
    reflexivity.
Qed.

Lemma frame_unfold delta (st : AppState N) :
  frame delta st =
    let '(shapes', t) :=
      useFrame_all delta (shapes st) (mkTick (moving st) (rotating st) []) in
    mkApp (selectedBoxId st) (axis_sel st) (distance st)
      (flush KMove (tick_calls t) (tick_moving t))
      (flush KRotate (tick_calls t) (tick_rotating t))
      (carsOnBoxes st) (errorBoxes st) (labelBoxId st) shapes'
      (alerts st) (calls st ++ tick_calls t).
Proof.
  unfold frame, frame_callbacks.
  by destruct (useFrame_all delta (shapes st) _) as [l' t].
Qed.

(** Apart from the label a double click leaves the state as it is. *)
Lemma handleZoomToBox_label controls change (mesh : option (Mesh N)) boxId
    (st : AppState N) :
  handleZoomToBox controls change mesh boxId st
    = set_label (labelBoxId (handleZoomToBox controls change mesh boxId st)) st.
Proof.
  unfold handleZoomToBox. destruct controls, mesh, change, st; reflexivity.
Qed.

Lemma lookup_flush type (cs : list (Kind * string)) (m : gmap string (AnimObj N)) k :
  flush type cs m !! k = if decide ((type, k) ∈ cs) then None else m !! k.
Proof.
  unfold flush. revert m. induction cs as [|[ty k'] cs IH]; intros m.
  - cbn [foldl]. destruct (decide _) as [Hin|]; [by apply elem_of_nil in Hin | done].
  - cbn [foldl fst snd]. rewrite IH.
    destruct (decide ((type, k) ∈ cs)) as [Hin|Hni];
      destruct (decide ((type, k) ∈ (ty, k') :: cs)) as [Hin'|Hni'];
      try done.
    + exfalso. apply Hni'. by right.
    + apply elem_of_cons in Hin' as [E|?]; [| done].
      injection E as <- <-. rewrite decide_True by done. apply lookup_delete_eq.
    + destruct (decide (ty = type)) as [->|Hty]; [| done].
      apply lookup_delete_ne. intros ->. apply Hni'. by left.
Qed.

(** A frame never adds a key to either map. *)
Lemma useFrame_all_None delta (l : list (string * Mesh N)) (t : Tick N) k :
  (tick_moving t !! k = None -> tick_moving (useFrame_all delta l t).2 !! k = None)
  /\ (tick_rotating t !! k = None -> tick_rotating (useFrame_all delta l t).2 !! k = None).
Proof.
  revert t. induction l as [|[id mesh] l IH]; intros t; simpl; [done |].
  rewrite Shape_useFrame_eq.
  match goal with |- context [useFrame_all delta l ?t1] =>
    specialize (IH t1); destruct (useFrame_all delta l t1) as [l' t2] end.
  simpl in *. destruct IH as [IHm IHr]. split; intros Hk.
  - apply IHm. rewrite lookup_alter. case_decide; subst; by rewrite ?Hk.
  - apply IHr. rewrite lookup_alter. case_decide; subst; by rewrite ?Hk.
Qed.

Lemma frame_keeps_absent delta (st : AppState N) k :
  (moving st !! k = None -> moving (frame delta st) !! k = None)
  /\ (rotating st !! k = None -> rotating (frame delta st) !! k = None).
Proof.
  rewrite frame_unfold.
  pose proof (useFrame_all_None delta (shapes st)
                (mkTick (moving st) (rotating st) []) k) as [Hm Hr].
  destruct (useFrame_all delta (shapes st) _) as [l' t]. simpl in *.
  split; intros Hk; rewrite lookup_flush; case_decide; auto.
Qed.

End FrameFacts.

(** ** Admission of move and rotate requests *)

Section HandlerFacts.

Context {N : Type} `{JsNumber N}.
Variable parseFloat : string -> option N.

Lemma selected_None (st : AppState N) :
  selected st = None <-> selectedBoxId st = None \/ selectedBoxId st = Some "".
Proof.
  unfold selected. destruct (selectedBoxId st) as [id|]; [| by split; auto].
  destruct (String.eqb_spec id "") as [->|Hne]; split; auto; try done.
  intros [?|[=]]; done.
Qed.

Lemma live_true (m : gmap string (AnimObj N)) id : live m id = true <-> is_Some (m !! id).
Proof. unfold live. rewrite bool_decide_eq_true. done. Qed.

Lemma live_false (m : gmap string (AnimObj N)) id : live m id = false <-> m !! id = None.
Proof. unfold live. rewrite bool_decide_eq_false, eq_None_not_Some. done. Qed.

(** An admitted move request stores a fresh entry under the selected id. *)
Lemma handleMove_admitted (st : AppState N) id dist :
  selected st = Some id ->
  parseFloat (distance st) = Some dist ->
  num_isNaN dist = false -> num_is_zero dist = false ->
  moving st !! id = None -> rotating st !! id = None ->
  handleMove parseFloat st =
    set_moving (<[id := mkAnimObj (Some (axis_sel st)) dist id]> (moving st)) st.
Proof.
  intros Hs Hp Hn Hz Hm Hr. unfold handleMove. rewrite Hs, Hp, Hn, Hz.
  apply live_false in Hm, Hr. by rewrite Hm, Hr.
Qed.

Lemma handleRotate_admitted (st : AppState N) id :
  selected st = Some id ->
  moving st !! id = None -> rotating st !! id = None ->
  handleRotate st = set_rotating (<[id := mkAnimObj None Math_PI id]> (rotating st)) st.
Proof.
  intros Hs Hm Hr. unfold handleRotate. rewrite Hs.
  apply live_false in Hm, Hr. by rewrite Hm, Hr.
Qed.

Lemma handleMove_rejected (st : AppState N) id :
  selected st = Some id ->
  parseFloat (distance st) = None
  \/ (exists dist, parseFloat (distance st) = Some dist
                   /\ (num_isNaN dist = true \/ num_is_zero dist = true))
  \/ is_Some (moving st !! id) \/ is_Some (rotating st !! id) ->
  handleMove parseFloat st = st.
Proof.
  intros Hsel Hrej. unfold handleMove. rewrite Hsel.
  destruct (parseFloat (distance st)) as [dist|] eqn:Hp; [| done].
  destruct (num_isNaN dist || num_is_zero dist) eqn:Hbad; [done |].
  apply orb_false_iff in Hbad as [Hn Hz].
  destruct Hrej as [?|[(d & Hd & Hbad)|Hlive]]; [done | |].
  - injection Hd as <-. destruct Hbad; congruence.
  - destruct Hlive as [Hl|Hl]; apply live_true in Hl; rewrite Hl;
      [done | by rewrite orb_true_r].
Qed.

Lemma handleRotate_rejected (st : AppState N) id :
  selected st = Some id ->
  is_Some (moving st !! id) \/ is_Some (rotating st !! id) ->
  handleRotate st = st.
Proof.
  intros Hsel Hlive. unfold handleRotate. rewrite Hsel.
  destruct Hlive as [Hl|Hl]; apply live_true in Hl; rewrite Hl;
    [by rewrite orb_true_r | done].
Qed.

Lemma exclusive_handle (st : AppState N) (e : Event N) :
  exclusive st -> exclusive (handle parseFloat st e).
Proof.
  intros Hex. destruct e; simpl; try exact Hex.
  - (* ClickMove *)
    unfold handleMove. destruct (selected st) as [id|]; [| exact Hex].
    destruct (parseFloat (distance st)) as [dist|]; [| exact Hex].
    destruct (num_isNaN dist || num_is_zero dist); [exact Hex |].
    destruct (live (moving st) id) eqn:Hm; [exact Hex |].
    destruct (live (rotating st) id) eqn:Hr; [exact Hex |].
    apply live_false in Hr. intros k. simpl.
    destruct (decide (k = id)) as [->|Hk]; [by right |].
    rewrite lookup_insert_ne by done. apply Hex.
  - (* ClickRotate *)
    unfold handleRotate. destruct (selected st) as [id|]; [| exact Hex].
    destruct (live (rotating st) id) eqn:Hr; [exact Hex |].
    destruct (live (moving st) id) eqn:Hm; [exact Hex |].
    apply live_false in Hm. intros k. simpl.
    destruct (decide (k = id)) as [->|Hk]; [by left |].
    rewrite lookup_insert_ne by done. apply Hex.
  - unfold clickToggle. destruct (selected st); exact Hex.
  - unfold clickToggle. destruct (selected st); exact Hex.
  - rewrite handleZoomToBox_label. exact Hex.
  - (* Frame *)
    intros k. destruct (frame_keeps_absent delta st k) as [Hm Hr].
    destruct (Hex k); auto.
Qed.

Lemma exclusive_run (evs : list (Event N)) (st : AppState N) :
  exclusive st -> exclusive (run parseFloat evs st).
Proof.
  revert st. induction evs as [|e evs IH]; intros st Hex; [exact Hex |].
  apply IH, exclusive_handle, Hex.
Qed.

End HandlerFacts.

(** C5: [handleMove] leaves the whole state as it is when the distance does
    not parse, is NaN or zero, or the selected box has a live move or rotate
    entry; [handleRotate] likewise for a live entry; with no box selected
    ([null], or the empty string of the selector) both change nothing but the
    list of alerts, to which the warning is added. The silent cases add no
    alert. *)
Theorem requests_rejected {N : Type} `{JsNumber N}
    (parseFloat : string -> option N) (st : AppState N) :
  ((selectedBoxId st = None \/ selectedBoxId st = Some "") ->
     let warned :=
       mkApp (selectedBoxId st) (axis_sel st) (distance st) (moving st)
         (rotating st) (carsOnBoxes st) (errorBoxes st) (labelBoxId st)
         (shapes st) (alerts st ++ ["No pallet selected!"]) (calls st) in
     handleMove parseFloat st = warned /\ handleRotate st = warned)
  /\ (forall id, selected st = Some id ->
        parseFloat (distance st) = None
        \/ (exists dist, parseFloat (distance st) = Some dist
                         /\ (num_isNaN dist = true \/ num_is_zero dist = true))
        \/ is_Some (moving st !! id) \/ is_Some (rotating st !! id) ->
        handleMove parseFloat st = st)
  /\ (forall id, selected st = Some id ->
        is_Some (moving st !! id) \/ is_Some (rotating st !! id) ->
        handleRotate st = st).
Proof.
  split; [| split].
  - intros Hsel%selected_None. unfold handleMove, handleRotate.
    rewrite Hsel. by split.
  - apply handleMove_rejected.
  - apply handleRotate_rejected.
Qed.

Lemma requests_rejected_witness :
  alerts (handleMove parseFloat_decimal (initial [Sample.palletQ]))
    = ["No pallet selected!"]
  /\ handleMove parseFloat_decimal (handleMove parseFloat_decimal Sample.readyQ)
     = handleMove parseFloat_decimal Sample.readyQ
  /\ handleRotate (handleMove parseFloat_decimal Sample.readyQ)
     = handleMove parseFloat_decimal Sample.readyQ.
Proof.
  destruct (requests_rejected parseFloat_decimal (initial [Sample.palletQ]))
    as (Hwarn & _ & _).
  destruct (requests_rejected parseFloat_decimal
              (handleMove parseFloat_decimal Sample.readyQ))
    as (_ & Hmove & Hrotate).
  split; [| split].
  - destruct Hwarn as [-> _]; [left; reflexivity | reflexivity].
  - apply (Hmove "A1"); [reflexivity |].
    right; right; left. eexists. reflexivity.
  - apply (Hrotate "A1"); [reflexivity |].
    left. eexists. reflexivity.
Defined.

(** C6: in every state reached from the initial state by any sequence of
    events, no id has both a move entry and a rotate entry; a move request
    is dropped while the box rotates and a rotate request while it moves. *)
Theorem never_moving_and_rotating {N : Type} `{JsNumber N}
    (parseFloat : string -> option N) (items : list (Box N))
    (evs : list (Event N)) (id : string) :
  let st := run parseFloat evs (initial items) in
  ~ (is_Some (moving st !! id) /\ is_Some (rotating st !! id))
  /\ (selected st = Some id -> is_Some (rotating st !! id) ->
      handleMove parseFloat st = st)
  /\ (selected st = Some id -> is_Some (moving st !! id) ->
      handleRotate st = st).
Proof.
  intros st. split; [| split].
  - assert (Hex : exclusive st).
    { apply exclusive_run. intros k. left. apply lookup_empty. }
    intros [[a Ha] [b Hb]]. destruct (Hex id); congruence.
  - intros Hsel Hr. apply (handleMove_rejected parseFloat st id Hsel); auto.
  - intros Hsel Hm. apply (handleRotate_rejected st id Hsel); auto.
Qed.

Lemma never_moving_and_rotating_witness :
  handleRotate (handleMove parseFloat_decimal Sample.readyQ)
    = handleMove parseFloat_decimal Sample.readyQ
  /\ handleMove parseFloat_decimal (handleRotate Sample.readyQ)
     = handleRotate Sample.readyQ.
Proof.
  destruct (never_moving_and_rotating parseFloat_decimal [Sample.palletQ]
              [Select "A1"; SetAxis AxisY; SetDistance "5"; ClickMove] "A1")
    as (_ & _ & Hrotate).
  destruct (never_moving_and_rotating parseFloat_decimal [Sample.palletQ]
              [Select "A1"; SetAxis AxisY; SetDistance "5"; ClickRotate] "A1")
    as (_ & Hmove & _).
  split.
  - apply Hrotate; [reflexivity |]. eexists. reflexivity.
  - apply Hmove; [reflexivity |]. eexists. reflexivity.
Defined.

(** ** Grid expansion *)

Section GridFacts.

Context {N : Type} `{JsNumber N}.

Lemma elem_of_cells nrows ncols r c :
  (r, c) ∈ cells nrows ncols <-> (r < nrows)%nat /\ (c < ncols)%nat.
Proof.
  unfold cells. rewrite list_elem_of_bind. split.
  - intros (r' & Hc & Hr). apply list_elem_of_bind in Hc as (c' & Hrc & Hc).
    apply list_elem_of_singleton in Hrc. injection Hrc as -> ->.
    apply elem_of_seq in Hr, Hc. lia.
  - intros [Hr Hc]. exists r. split; [| apply elem_of_seq; lia].
    apply list_elem_of_bind. exists c. split; [by apply list_elem_of_singleton |].
    apply elem_of_seq; lia.
Qed.

Lemma NoDup_cells nrows ncols : NoDup (cells nrows ncols).
Proof.
  unfold cells. apply NoDup_bind; [| | apply NoDup_seq].
  - intros r1 r2 rc _ _ H1 H2.
    apply list_elem_of_bind in H1 as (c1 & E1 & _).
    apply list_elem_of_bind in H2 as (c2 & E2 & _).
    apply list_elem_of_singleton in E1, E2. congruence.
  - intros r _. apply NoDup_bind; [| | apply NoDup_seq].
    + intros c1 c2 rc _ _ E1 E2.
      apply list_elem_of_singleton in E1, E2. congruence.
    + intros c _. apply NoDup_singleton.
Qed.

Lemma expandCell_inside floor rc :
  (rc.1 < length (grid floor))%nat ->
  expandCell floor rc =
    Some (if decide (occupied floor rc) then [cell_box floor rc.1 rc.2] else []).
Proof.
  intros Hr. unfold expandCell.
  destruct (lookup_lt_is_Some_2 _ _ Hr) as [row Hrow]. rewrite Hrow. f_equal.
  destruct (decide (occupied floor rc)) as [Hocc|Hocc];
    unfold occupied in Hocc; rewrite Hrow in Hocc; simpl in Hocc.
  - rewrite Hocc. by rewrite decide_True.
  - destruct (decide (default JUndefined (row !! rc.2) = JNum 1)) as [E|]; [| done].
    exfalso. apply Hocc. destruct (row !! rc.2); simpl in *; congruence.
Qed.

Lemma mapM_expandCell floor (l : list (nat * nat)) :
  Forall (λ rc, (rc.1 < length (grid floor))%nat) l ->
  mjoin <$> mapM (expandCell floor) l =
    Some ((λ rc, cell_box floor rc.1 rc.2) <$> filter (occupied floor) l).
Proof.
  induction 1 as [|rc l Hrc Hl IH]; [done |].
  cbn [mapM]. rewrite (expandCell_inside _ _ Hrc). simpl.
  destruct (mapM (expandCell floor) l) as [k|]; [| done].
  injection IH as IH. simpl. f_equal. rewrite IH.
  rewrite filter_cons. by destruct (decide (occupied floor rc)).
Qed.

Lemma expandGrid_inside (floor : Floor N) :
  (rows floor <= length (grid floor))%nat \/ cols floor = 0%nat ->
  expandGrid floor =
    Some ((λ rc, cell_box floor rc.1 rc.2)
            <$> filter (occupied floor) (cells (rows floor) (cols floor))).
Proof.
  intros Hwf. unfold expandGrid. apply mapM_expandCell.
  apply Forall_forall. intros [r c] [Hr Hc]%elem_of_cells. simpl. lia.
Qed.

(** Indexing a row that the grid array lacks throws. *)
Lemma expandGrid_throws (floor : Floor N) :
  (length (grid floor) < rows floor)%nat -> (0 < cols floor)%nat ->
  expandGrid floor = None.
Proof.
  intros Hr Hc. unfold expandGrid.
  destruct (mapM (expandCell floor) (cells (rows floor) (cols floor)))
    as [k|] eqn:E; [| done].
  exfalso. apply mapM_Some in E.
  assert (Hin : (length (grid floor), 0%nat) ∈ cells (rows floor) (cols floor))
    by (apply elem_of_cells; lia).
  apply list_elem_of_lookup in Hin as [i Hi].
  destruct (Forall2_lookup_l _ _ _ _ _ E Hi) as (b & _ & Hb).
  unfold expandCell in Hb. simpl in Hb.
  rewrite lookup_ge_None_2 in Hb; [done | lia].
Qed.

End GridFacts.

(** C8: when the grid array has a row for every row index the loops visit,
    [expandGrid] returns, in loop order, one box per occupied cell (r, c) of
    the iteration space, and that box has the id, the position and the
    template fields named in the claim; every cell of the iteration space is
    visited once.  The 2x2 example yields the boxes "01" at (5, y, 5) and
    "12" at (15, y, 15) on binary64 numbers. *)
Theorem expandGrid_boxes :
  (forall (N : Type) (HN : JsNumber N) (floor : Floor N),
     (rows floor <= length (grid floor))%nat \/ cols floor = 0%nat ->
     expandGrid floor =
       Some ((λ rc : nat * nat,
                mkBox (ToString (rowLabel floor rc.1) +:+ String_of_nat (rc.2 + 1))
                  (num_add (num_mul (num_of_nat rc.2) (cellWidth floor))
                           (num_div (cellWidth floor) (num_of_Z 2)))
                  (floor_y floor)
                  (num_add (num_mul (num_of_nat rc.1) (cellDepth floor))
                           (num_div (cellDepth floor) (num_of_Z 2)))
                  (tpl_width (floor_box floor)) (tpl_height (floor_box floor))
                  (tpl_depth (floor_box floor)) (tpl_color (floor_box floor)))
               <$> filter (occupied floor) (cells (rows floor) (cols floor)))
     /\ NoDup (cells (rows floor) (cols floor))
     /\ (forall r c, (r, c) ∈ cells (rows floor) (cols floor)
                     <-> (r < rows floor)%nat /\ (c < cols floor)%nat))
  /\ (forall (y : float) (tpl : BoxTemplate float),
        expandGrid (mkFloor 2 2 [[JNum 1; JNum 0]; [JNum 0; JNum 1]] None
                      10%float 10%float y tpl)
        = Some [mkBox "01" 5%float y 5%float (tpl_width tpl) (tpl_height tpl)
                  (tpl_depth tpl) (tpl_color tpl);
                mkBox "12" 15%float y 15%float (tpl_width tpl) (tpl_height tpl)
                  (tpl_depth tpl) (tpl_color tpl)]).
Proof.
  split.
  - intros N HN floor Hwf. split; [| split].
    + apply expandGrid_inside, Hwf.
    + apply NoDup_cells.
    + intros r c. apply elem_of_cells.
  - intros y tpl. vm_compute. reflexivity.
Qed.

Lemma expandGrid_boxes_witness :
  expandGrid Sample.floorQ =
    Some [mkBox "01" (0 * 10 + 10 / 2) 0 (0 * 10 + 10 / 2) 8 1 8 None;
          mkBox "B2" (1 * 10 + 10 / 2) 0 (1 * 10 + 10 / 2) 8 1 8 None]%Q.
Proof.
  destruct expandGrid_boxes as [Hgen _].
  destruct (Hgen Q _ Sample.floorQ) as [Heq _].
  - left. simpl. lia.
  - rewrite Heq. reflexivity.
Defined.

(** C10: a row whose entry in [rowLabels] is falsy gets the numeric row
    index as its label: the box of an occupied cell (r, c) in such a row is
    in the result with the id made of r and c + 1.  The empty string, 0,
    [null] and [undefined] are all falsy. *)
Theorem falsy_rowLabel_is_row_index {N : Type} `{JsNumber N}
    (floor : Floor N) (r c : nat) (boxes : list (Box N)) :
  truthy (rowLabels_at floor r) = false ->
  expandGrid floor = Some boxes ->
  (r < rows floor)%nat -> (c < cols floor)%nat ->
  occupied floor (r, c) ->
  rowLabel floor r = JNum (Z.of_nat r)
  /\ cell_box floor r c ∈ boxes
  /\ box_id (cell_box floor r c) = String_of_nat r +:+ String_of_nat (c + 1)
  /\ (forall v, v ∈ [JStr ""; JNum 0; JNull; JUndefined] -> truthy v = false).
Proof.
  intros Hfalsy Hexp Hr Hc Hocc.
  assert (Hlabel : rowLabel floor r = JNum (Z.of_nat r)).
  { unfold rowLabel, js_or. by rewrite Hfalsy. }
  split; [exact Hlabel | split; [| split]].
  - destruct (decide (rows floor <= length (grid floor))%nat) as [Hle|Hgt].
    + rewrite expandGrid_inside in Hexp by auto. injection Hexp as <-.
      apply (list_elem_of_fmap_2' _ _ (r, c)); [| done].
      apply list_elem_of_filter. split; [done |]. apply elem_of_cells. lia.
    + rewrite expandGrid_throws in Hexp by lia. done.
  - unfold cell_box, cell_id. simpl. by rewrite Hlabel.
  - intros v Hv. repeat (apply elem_of_cons in Hv as [->|Hv]; [done |]).
    by apply elem_of_nil in Hv.
Qed.

Lemma falsy_rowLabel_is_row_index_witness :
  box_id (cell_box Sample.floorQ 0 0) = "01".
Proof.
  destruct (falsy_rowLabel_is_row_index Sample.floorQ 0 0
              [cell_box Sample.floorQ 0 0; cell_box Sample.floorQ 1 1])
    as (_ & _ & Hid & _).
  - reflexivity.
  - reflexivity.
  - simpl. lia.
  - simpl. lia.
  - reflexivity.
  - exact Hid.
Defined.

(** ** Frames on a scene whose box ids are distinct *)

Section TrackFacts.

Context {N : Type} `{JsNumber N}.

Lemma shape_after_agree delta (m r m' r' : gmap string (AnimObj N)) l :
  (forall s, s ∈ l -> m' !! s.1 = m !! s.1 /\ r' !! s.1 = r !! s.1) ->
  shape_after delta m' r' <$> l = shape_after delta m r <$> l
  /\ l ≫= shape_fired delta m' r' = l ≫= shape_fired delta m r.
Proof.
  induction l as [|s l IH]; intros Hag; [done |].
  destruct IH as [IH1 IH2]; [intros s' Hs'; apply Hag; by right |].
  destruct (Hag s) as [Hm Hr]; [by left |].
  rewrite !fmap_cons, !bind_cons, IH1, IH2.
  unfold shape_after, shape_fired. by rewrite Hm, Hr.
Qed.

Lemma useFrame_all_spec delta (l : list (string * Mesh N)) (t : Tick N) :
  NoDup l.*1 ->
  (useFrame_all delta l t).1
    = shape_after delta (tick_moving t) (tick_rotating t) <$> l
  /\ tick_calls (useFrame_all delta l t).2
    = tick_calls t ++ (l ≫= shape_fired delta (tick_moving t) (tick_rotating t))
  /\ (forall k, tick_moving (useFrame_all delta l t).2 !! k
        = if decide (k ∈ l.*1) then advance KMove delta <$> tick_moving t !! k
          else tick_moving t !! k)
  /\ (forall k, tick_rotating (useFrame_all delta l t).2 !! k
        = if decide (k ∈ l.*1) then advance KRotate delta <$> tick_rotating t !! k
          else tick_rotating t !! k).
Proof.
  revert t. induction l as [|[id mesh] l IH]; intros t Hnd.
  - simpl. rewrite app_nil_r. repeat split; intros k;
      (rewrite decide_False; [done | apply not_elem_of_nil]).
  - rewrite fmap_cons in Hnd. apply NoDup_cons in Hnd as [Hid Hnd]. simpl in Hid.
    cbn [useFrame_all]. rewrite Shape_useFrame_eq.
    match goal with |- context [useFrame_all delta l ?t1] =>
      specialize (IH t1 Hnd); destruct (useFrame_all delta l t1) as [l' t2] end.
    cbn [fst snd tick_moving tick_rotating tick_calls] in *.
    destruct IH as (IHs & IHc & IHm & IHr).
    assert (Hag : forall s, s ∈ l ->
              alter (advance KMove delta) id (tick_moving t) !! s.1 = tick_moving t !! s.1
              /\ alter (advance KRotate delta) id (tick_rotating t) !! s.1
                 = tick_rotating t !! s.1).
    { intros s Hs. assert (id <> s.1).
      { intros ->. apply Hid. by apply list_elem_of_fmap_2. }
      by rewrite !lookup_alter_ne. }
    destruct (shape_after_agree delta _ _ _ _ l Hag) as [E1 E2].
    split; [| split; [| split]].
    + rewrite IHs, E1. reflexivity.
    + rewrite IHc, E2, bind_cons.
      replace (shape_fired delta (tick_moving t) (tick_rotating t) (id, mesh))
        with (fired KMove delta (tick_moving t !! id)
              ++ fired KRotate delta (tick_rotating t !! id)) by reflexivity.
      by rewrite <- !app_assoc.
    + intros k. rewrite IHm, fmap_cons. simpl.
      destruct (decide (k = id)) as [->|Hk].
      * rewrite decide_False by done. rewrite decide_True by (by left).
        by rewrite lookup_alter_eq.
      * rewrite lookup_alter_ne by done.
        destruct (decide (k ∈ l.*1)).
        -- rewrite decide_True by (by right). done.
        -- rewrite decide_False; [done |]. by intros [?|?]%elem_of_cons.
    + intros k. rewrite IHr, fmap_cons. simpl.
      destruct (decide (k = id)) as [->|Hk].
      * rewrite decide_False by done. rewrite decide_True by (by left).
        by rewrite lookup_alter_eq.
      * rewrite lookup_alter_ne by done.
        destruct (decide (k ∈ l.*1)).
        -- rewrite decide_True by (by right). done.
        -- rewrite decide_False; [done |]. by intros [?|?]%elem_of_cons.
Qed.

Lemma elem_of_fired type delta (m : gmap string (AnimObj N)) id c :
  well_keyed m ->
  c ∈ fired type delta (m !! id) <->
    c = (type, id)
    /\ exists o, m !! id = Some o /\ finished (remaining (advance type delta o)) = true.
Proof.
  intros Hwk. unfold fired. destruct (m !! id) as [o|] eqn:E.
  - destruct (finished (remaining (advance type delta o))) eqn:Hf.
    + rewrite list_elem_of_singleton, (Hwk _ _ E).
      split; [intros ->; eauto | by intros [-> _]].
    + split; [by intros ?%elem_of_nil |]. intros (_ & o' & [= <-] & ?). congruence.
  - split; [by intros ?%elem_of_nil |]. by intros (_ & o' & ? & _).
Qed.

Lemma filter_fired type type' delta (m : gmap string (AnimObj N)) id k :
  well_keyed m ->
  filter (λ c, c = (type, k)) (fired type' delta (m !! id))
    = if decide (type' = type /\ id = k) then fired type' delta (m !! id) else [].
Proof.
  intros Hwk. unfold fired. destruct (m !! id) as [o|] eqn:E; [| by case_decide].
  destruct (finished (remaining (advance type' delta o))); [| by case_decide].
  rewrite (Hwk _ _ E), filter_cons, filter_nil.
  destruct (decide (type' = type /\ id = k)) as [[-> ->]|Hne].
  - by rewrite decide_True.
  - rewrite decide_False; [done |]. intros [= -> ->]. by apply Hne.
Qed.

Lemma count_shape_fired type delta (m r : gmap string (AnimObj N)) l k :
  well_keyed m -> well_keyed r -> NoDup l.*1 ->
  length (filter (λ c, c = (type, k)) (l ≫= shape_fired delta m r))
    = if decide (k ∈ l.*1) then length (fired type delta (pick type m r !! k)) else 0%nat.
Proof.
  intros Hm Hr. induction l as [|[id mesh] l IH]; intros Hnd.
  - rewrite decide_False; [done | apply not_elem_of_nil].
  - rewrite fmap_cons in Hnd. apply NoDup_cons in Hnd as [Hid Hnd]. simpl in Hid.
    rewrite bind_cons, filter_app, length_app, (IH Hnd).
    unfold shape_fired at 1. simpl fst.
    rewrite filter_app, length_app, !filter_fired by done.
    rewrite fmap_cons. simpl fst.
    destruct (decide (id = k)) as [->|Hk].
    + rewrite (decide_False (P := k ∈ l.*1)) by done.
      rewrite (decide_True (P := k ∈ k :: l.*1)) by (by left).
      destruct type.
      * rewrite decide_True by done. rewrite decide_False by (by intros [? _]).
        simpl. lia.
      * rewrite decide_False by (by intros [? _]). rewrite decide_True by done.
        simpl. lia.
    + rewrite !(decide_False (P := _ /\ id = k)) by (by intros [_ ?]). simpl.
      destruct (decide (k ∈ l.*1)).
      * rewrite decide_True by (by right). done.
      * rewrite decide_False; [done |]. by intros [?|?]%elem_of_cons.
Qed.

Lemma elem_of_shape_fired type delta (m r : gmap string (AnimObj N)) l k :
  well_keyed m -> well_keyed r ->
  (type, k) ∈ l ≫= shape_fired delta m r <->
    k ∈ l.*1
    /\ exists o, pick type m r !! k = Some o
                 /\ finished (remaining (advance type delta o)) = true.
Proof.
  intros Hm Hr. rewrite list_elem_of_bind. unfold shape_fired. split.
  - intros ([id mesh] & Hc & Hs). simpl in Hc.
    apply elem_of_app in Hc as [Hc|Hc]; apply elem_of_fired in Hc; try done;
      destruct Hc as ([= -> ->] & Ho); (split; [| exact Ho]);
      apply (list_elem_of_fmap_2 fst _ _ Hs).
  - intros (Hk & o & Ho & Hf).
    apply list_elem_of_fmap in Hk as ([id mesh] & -> & Hs).
    exists (id, mesh). split; [| done]. simpl in *. apply elem_of_app.
    destruct type; [left | right]; apply elem_of_fired; eauto.
Qed.

Lemma frame_shapes delta (st : AppState N) :
  well_formed st ->
  shapes (frame delta st) = shape_after delta (moving st) (rotating st) <$> shapes st.
Proof.
  intros (Hnd & _). rewrite frame_unfold.
  pose proof (useFrame_all_spec delta (shapes st)
                (mkTick (moving st) (rotating st) []) Hnd) as (Hs & _).
  by destruct (useFrame_all delta (shapes st) _) as [l' t].
Qed.

Lemma frame_calls delta (st : AppState N) :
  well_formed st ->
  calls (frame delta st)
    = calls st ++ (shapes st ≫= shape_fired delta (moving st) (rotating st)).
Proof.
  intros (Hnd & _). rewrite frame_unfold.
  pose proof (useFrame_all_spec delta (shapes st)
                (mkTick (moving st) (rotating st) []) Hnd) as (_ & Hc & _).
  destruct (useFrame_all delta (shapes st) _) as [l' t]. simpl in *.
  by rewrite Hc.
Qed.

Lemma frame_entries type delta (st : AppState N) k :
  well_formed st ->
  entries type (frame delta st) !! k
    = if decide (k ∈ (shapes st).*1) then after type delta (entries type st !! k)
      else entries type st !! k.
Proof.
  intros (Hnd & Hwm & Hwr). rewrite frame_unfold.
  pose proof (useFrame_all_spec delta (shapes st)
                (mkTick (moving st) (rotating st) []) Hnd) as (_ & Hc & Hm & Hr).
  destruct (useFrame_all delta (shapes st) _) as [l' t].
  cbn [fst snd tick_moving tick_rotating tick_calls app] in *.
  assert (Hlk : pick type (tick_moving t) (tick_rotating t) !! k
                = if decide (k ∈ (shapes st).*1)
                  then advance type delta <$> entries type st !! k
                  else entries type st !! k)
    by (destruct type; simpl; [apply Hm | apply Hr]).
  assert (Hfl : entries type
                  (mkApp (selectedBoxId st) (axis_sel st) (distance st)
                     (flush KMove (tick_calls t) (tick_moving t))
                     (flush KRotate (tick_calls t) (tick_rotating t))
                     (carsOnBoxes st) (errorBoxes st) (labelBoxId st) l'
                     (alerts st) (calls st ++ tick_calls t)) !! k
                = if decide ((type, k) ∈ tick_calls t) then None
                  else pick type (tick_moving t) (tick_rotating t) !! k)
    by (destruct type; simpl; apply lookup_flush).
  rewrite Hfl, Hlk, Hc. clear Hfl Hlk.
  pose proof (elem_of_shape_fired type delta (moving st) (rotating st)
                (shapes st) k Hwm Hwr) as Hin.
  replace (pick type (moving st) (rotating st)) with (entries type st) in Hin
    by (by destruct type).
  destruct (decide ((type, k) ∈ shapes st ≫= _)) as [Hc'|Hc'].
  - apply Hin in Hc' as (Hk & o & Ho & Hf).
    rewrite decide_True by done. rewrite Ho. unfold after. by rewrite Hf.
  - destruct (decide (k ∈ (shapes st).*1)) as [Hk|Hk]; [| done].
    destruct (entries type st !! k) as [o|] eqn:Ho; [| done]. unfold after.
    destruct (finished (remaining (advance type delta o))) eqn:Hf; [| done].
    exfalso. apply Hc', Hin. eauto.
Qed.

Lemma frame_resolve_count type delta (st : AppState N) k :
  well_formed st ->
  resolve_count type k (frame delta st)
    = (resolve_count type k st
       + if decide (k ∈ (shapes st).*1)
         then length (fired type delta (entries type st !! k)) else 0)%nat.
Proof.
  intros Hwf. unfold resolve_count. rewrite (frame_calls _ _ Hwf).
  destruct Hwf as (Hnd & Hwm & Hwr).
  rewrite filter_app, length_app, count_shape_fired by done.
  by destruct type.
Qed.

Lemma frame_well_formed delta (st : AppState N) :
  well_formed st -> well_formed (frame delta st).
Proof.
  intros Hwf. pose proof Hwf as (Hnd & Hwm & Hwr). split; [| split].
  - rewrite (frame_shapes _ _ Hwf), <- list_fmap_compose.
    by rewrite (list_fmap_ext (fst ∘ shape_after delta (moving st) (rotating st)) fst
                  (shapes st)).
  - intros k o Ho.
    change (moving (frame delta st)) with (entries KMove (frame delta st)) in Ho.
    rewrite (frame_entries _ _ _ _ Hwf) in Ho. simpl in Ho.
    destruct (decide (k ∈ (shapes st).*1)); [| by apply Hwm].
    destruct (moving st !! k) as [o0|] eqn:E; [| done]. unfold after in Ho.
    destruct (finished _); [done |]. injection Ho as <-. simpl. by apply Hwm.
  - intros k o Ho.
    change (rotating (frame delta st)) with (entries KRotate (frame delta st)) in Ho.
    rewrite (frame_entries _ _ _ _ Hwf) in Ho. simpl in Ho.
    destruct (decide (k ∈ (shapes st).*1)); [| by apply Hwr].
    destruct (rotating st !! k) as [o0|] eqn:E; [| done]. unfold after in Ho.
    destruct (finished _); [done |]. injection Ho as <-. simpl. by apply Hwr.
Qed.

Lemma frames_well_formed deltas (st : AppState N) :
  well_formed st -> well_formed (frames deltas st).
Proof.
  revert st. induction deltas as [|d ds IH]; intros st Hwf; [done |].
  apply IH, frame_well_formed, Hwf.
Qed.

(** What one frame does to the [i]-th shape and to the entries of its id. *)
Lemma frame_track type delta (st : AppState N) i id mesh :
  well_formed st ->
  shapes st !! i = Some (id, mesh) ->
  shapes (frame delta st) !! i
    = Some (id, mesh_after delta mesh (moving st !! id) (rotating st !! id))
  /\ entries type (frame delta st) !! id = after type delta (entries type st !! id)
  /\ resolve_count type id (frame delta st)
     = (resolve_count type id st + length (fired type delta (entries type st !! id)))%nat.
Proof.
  intros Hwf Hi.
  assert (Hid : id ∈ (shapes st).*1).
  { apply list_elem_of_fmap. exists (id, mesh). split; [done |].
    by apply list_elem_of_lookup_2 with i. }
  split; [| split].
  - rewrite (frame_shapes _ _ Hwf), list_lookup_fmap, Hi. reflexivity.
  - rewrite (frame_entries _ _ _ _ Hwf). by rewrite decide_True.
  - rewrite (frame_resolve_count _ _ _ _ Hwf). by rewrite decide_True.
Qed.

Lemma pose_of_mesh_after type delta (mesh : Mesh N) (om or : option (AnimObj N)) :
  match type with KMove => om | KRotate => or end = None ->
  pose_of type (mesh_after delta mesh om or) = pose_of type mesh.
Proof.
  intros Hnone. destruct type; subst.
  - destruct or; reflexivity.
  - destruct om as [o|]; [| reflexivity]. simpl.
    destruct (axis o) as [[]|]; reflexivity.
Qed.

(** Without an entry, any number of frames leaves the pose alone and calls
    no [resolve]. *)
Lemma frames_absent type deltas (st : AppState N) i id mesh :
  well_formed st ->
  shapes st !! i = Some (id, mesh) ->
  entries type st !! id = None ->
  entries type (frames deltas st) !! id = None
  /\ resolve_count type id (frames deltas st) = resolve_count type id st
  /\ exists mesh', shapes (frames deltas st) !! i = Some (id, mesh')
                   /\ pose_of type mesh' = pose_of type mesh.
Proof.
  revert st mesh. induction deltas as [|d ds IH]; intros st mesh Hwf Hi Hnone.
  - simpl. eauto.
  - destruct (frame_track type d st i id mesh Hwf Hi) as (Hs & He & Hc).
    rewrite Hnone in He, Hc. simpl in He, Hc.
    destruct (IH (frame d st) _ (frame_well_formed d st Hwf) Hs He)
      as (He' & Hc' & mesh' & Hs' & Hp').
    split; [exact He' | split].
    + change (frames (d :: ds) st) with (frames ds (frame d st)). lia.
    + exists mesh'. split; [exact Hs' |]. rewrite Hp'.
      apply pose_of_mesh_after. by destruct type.
Qed.

(** Over any run of frames, [resolve] of a live entry is called once if
    the entry has gone from its map, and not at all while it is still in. *)
Lemma frames_resolve_count type deltas (st : AppState N) i id mesh o :
  well_formed st ->
  shapes st !! i = Some (id, mesh) ->
  entries type st !! id = Some o ->
  resolve_count type id (frames deltas st)
    = (resolve_count type id st
       + match entries type (frames deltas st) !! id with
         | Some _ => 0
         | None => 1
         end)%nat.
Proof.
  revert st mesh o. induction deltas as [|d ds IH]; intros st mesh o Hwf Hi Ho.
  - simpl. rewrite Ho. lia.
  - change (frames (d :: ds) st) with (frames ds (frame d st)).
    destruct (frame_track type d st i id mesh Hwf Hi) as (Hs & He & Hc).
    pose proof (frame_well_formed d st Hwf) as Hwf'.
    rewrite Ho in He, Hc. unfold after, fired in He, Hc.
    destruct (finished (remaining (advance type d o))).
    + destruct (frames_absent type ds _ _ _ _ Hwf' Hs He) as (He' & Hc' & _).
      rewrite He', Hc', Hc. reflexivity.
    + rewrite (IH _ _ _ Hwf' Hs He), Hc. simpl. lia.
Qed.

Lemma frames_track deltas (st : AppState N) i id mesh :
  well_formed st ->
  shapes st !! i = Some (id, mesh) ->
  shapes (frames deltas st) !! i
    = Some (id, (track deltas (mesh, moving st !! id, rotating st !! id)).1.1)
  /\ moving (frames deltas st) !! id
     = (track deltas (mesh, moving st !! id, rotating st !! id)).1.2
  /\ rotating (frames deltas st) !! id
     = (track deltas (mesh, moving st !! id, rotating st !! id)).2.
Proof.
  revert st mesh. induction deltas as [|d ds IH]; intros st mesh Hwf Hi; [done |].
  destruct (frame_track KMove d st i id mesh Hwf Hi) as (Hs & Hm & _).
  destruct (frame_track KRotate d st i id mesh Hwf Hi) as (_ & Hr & _).
  simpl in Hm, Hr.
  destruct (IH (frame d st) _ (frame_well_formed d st Hwf) Hs) as (IHs & IHm & IHr).
  rewrite Hm, Hr in IHs, IHm, IHr. done.
Qed.

Lemma track_idle (deltas : list N) (mesh : Mesh N) :
  track deltas (mesh, None, None) = (mesh, None, None).
Proof. induction deltas as [|d ds IH]; [done | exact IH]. Qed.

Lemma after_fold_None type (deltas : list N) :
  foldl (λ x d, after type d x) None deltas = None.
Proof. induction deltas as [|d ds IH]; [done | exact IH]. Qed.

Lemma track_entries (deltas : list N) (mesh : Mesh N) om or :
  (track deltas (mesh, om, or)).1.2 = foldl (λ x d, after KMove d x) om deltas
  /\ (track deltas (mesh, om, or)).2 = foldl (λ x d, after KRotate d x) or deltas.
Proof.
  revert mesh om or. induction deltas as [|d ds IH]; intros; [done |]. apply IH.
Qed.

(** The entry of a shown box over a run of frames. *)
Lemma frames_entries type deltas (st : AppState N) i id mesh :
  well_formed st ->
  shapes st !! i = Some (id, mesh) ->
  entries type (frames deltas st) !! id
    = foldl (λ x d, after type d x) (entries type st !! id) deltas.
Proof.
  intros Hwf Hi.
  destruct (frames_track deltas st i id mesh Hwf Hi) as (_ & Hm & Hr).
  destruct (track_entries deltas mesh (moving st !! id) (rotating st !! id))
    as [Em Er].
  destruct type; simpl; congruence.
Qed.

(** Every state the events can produce from a scene with distinct box ids
    is well formed. *)
Lemma initial_well_formed (items : list (Box N)) :
  NoDup (box_id <$> items) -> well_formed (initial items).
Proof.
  intros Hnd. split; [| split]; [| by intros k o ?..].
  simpl. by rewrite <- list_fmap_compose.
Qed.

Lemma handle_well_formed parseFloat (st : AppState N) (e : Event N) :
  well_formed st -> well_formed (handle parseFloat st e).
Proof.
  intros Hwf. pose proof Hwf as (Hnd & Hwm & Hwr).
  destruct e; simpl; try exact Hwf.
  - unfold handleMove. destruct (selected st) as [id|]; [| exact Hwf].
    destruct (parseFloat (distance st)) as [dist|]; [| exact Hwf].
    destruct (num_isNaN dist || num_is_zero dist); [exact Hwf |].
    destruct (live (moving st) id || live (rotating st) id); [exact Hwf |].
    split; [exact Hnd | split; [| exact Hwr]]. intros k o. simpl.
    rewrite lookup_insert. case_decide; subst; [by intros [= <-] | apply Hwm].
  - unfold handleRotate. destruct (selected st) as [id|]; [| exact Hwf].
    destruct (live (rotating st) id || live (moving st) id); [exact Hwf |].
    split; [exact Hnd | split; [exact Hwm |]]. intros k o. simpl.
    rewrite lookup_insert. case_decide; subst; [by intros [= <-] | apply Hwr].
  - unfold clickToggle. destruct (selected st); exact Hwf.
  - unfold clickToggle. destruct (selected st); exact Hwf.
  - rewrite handleZoomToBox_label. exact Hwf.
  - by apply frame_well_formed.
Qed.

Lemma run_well_formed parseFloat (evs : list (Event N)) (st : AppState N) :
  well_formed st -> well_formed (run parseFloat evs st).
Proof.
  revert st. induction evs as [|e evs IH]; intros st Hwf; [exact Hwf |].
  apply IH, handle_well_formed, Hwf.
Qed.

Lemma frames_selected deltas (st : AppState N) :
  selected (frames deltas st) = selected st.
Proof.
  revert st. induction deltas as [|d ds IH]; intros st; [done |].
  change (frames (d :: ds) st) with (frames ds (frame d st)). rewrite IH.
  rewrite frame_unfold. by destruct (useFrame_all d (shapes st) _).
Qed.

Lemma frames_keep_absent type deltas (st : AppState N) k :
  entries type st !! k = None -> entries type (frames deltas st) !! k = None.
Proof.
  revert st. induction deltas as [|d ds IH]; intros st Hk; [done |].
  apply (IH (frame d st)). destruct (frame_keeps_absent d st k).
  destruct type; auto.
Qed.

(** Whatever the event, [resolve] of an entry is called exactly when the
    entry leaves its map. *)
Lemma handle_resolve_count parseFloat type id (st : AppState N) (e : Event N) :
  well_formed st ->
  resolve_count type id (handle parseFloat st e)
    = (resolve_count type id st
       + match entries type st !! id, entries type (handle parseFloat st e) !! id with
         | Some _, None => 1
         | _, _ => 0
         end)%nat.
Proof.
  intros Hwf.
  assert (Hsame : forall st' : AppState N,
             calls st' = calls st ->
             (is_Some (entries type st !! id) -> is_Some (entries type st' !! id)) ->
             resolve_count type id st'
               = (resolve_count type id st
                  + match entries type st !! id, entries type st' !! id with
                    | Some _, None => 1
                    | _, _ => 0
                    end)%nat).
  { intros st' Hc Hlive. unfold resolve_count. rewrite Hc.
    destruct (entries type st !! id) as [o|]; [| lia].
    destruct Hlive as [o' ->]; [by eexists | lia]. }
  destruct e; simpl; try (apply Hsame; [reflexivity | by destruct type]).
  - (* ClickMove *)
    apply Hsame; unfold handleMove.
    + destruct (selected st); [| done].
      destruct (parseFloat (distance st)) as [dist|]; [| done].
      destruct (num_isNaN dist || num_is_zero dist); [done |].
      by destruct (live (moving st) _ || live (rotating st) _).
    + destruct (selected st) as [k|]; [| by destruct type].
      destruct (parseFloat (distance st)) as [dist|]; [| done].
      destruct (num_isNaN dist || num_is_zero dist); [done |].
      destruct (live (moving st) k || live (rotating st) k); [done |].
      destruct type; simpl; [| done]. intros Hlive.
      rewrite lookup_insert. by case_decide.
  - (* ClickRotate *)
    apply Hsame; unfold handleRotate.
    + destruct (selected st); [| done].
      by destruct (live (rotating st) _ || live (moving st) _).
    + destruct (selected st) as [k|]; [| by destruct type].
      destruct (live (rotating st) k || live (moving st) k); [done |].
      destruct type; simpl; [done |]. intros Hlive.
      rewrite lookup_insert. by case_decide.
  - apply Hsame; unfold clickToggle; destruct (selected st); try done;
      by destruct type.
  - apply Hsame; unfold clickToggle; destruct (selected st); try done;
      by destruct type.
  - rewrite handleZoomToBox_label. apply Hsame; [reflexivity | by destruct type].
  - (* Frame *)
    rewrite (frame_resolve_count _ _ _ _ Hwf), (frame_entries _ _ _ _ Hwf).
    destruct (decide (id ∈ (shapes st).*1)).
    + unfold fired, after. destruct (entries type st !! id) as [o|]; [| done].
      by destruct (finished (remaining (advance type delta o))).
    + by destruct (entries type st !! id).
Qed.

(** The callbacks of a frame on their own: the meshes are stepped, the
    entries advanced and kept, and [resolve] is called for every entry of a
    shown box that the step leaves with |remaining| < 0.001. *)
Lemma frame_callbacks_spec delta (st : AppState N) :
  well_formed st ->
  shapes (frame_callbacks delta st).1
    = shape_after delta (moving st) (rotating st) <$> shapes st
  /\ (frame_callbacks delta st).2
     = shapes st ≫= shape_fired delta (moving st) (rotating st)
  /\ calls (frame_callbacks delta st).1 = calls st ++ (frame_callbacks delta st).2
  /\ (forall type k,
        entries type (frame_callbacks delta st).1 !! k
          = if decide (k ∈ (shapes st).*1) then advance type delta <$> entries type st !! k
            else entries type st !! k).
Proof.
  intros (Hnd & _). unfold frame_callbacks.
  pose proof (useFrame_all_spec delta (shapes st)
                (mkTick (moving st) (rotating st) []) Hnd) as (Hs & Hc & Hm & Hr).
  destruct (useFrame_all delta (shapes st) _) as [l' t].
  cbn [fst snd tick_moving tick_rotating tick_calls app shapes calls] in *.
  split; [exact Hs | split; [exact Hc | split; [done |]]].
  intros type k. destruct type; [apply Hm | apply Hr].
Qed.

Lemma frame_commits delta (st : AppState N) :
  frame delta st = commit (frame_callbacks delta st).2 (frame_callbacks delta st).1.
Proof. unfold frame. by destruct (frame_callbacks delta st). Qed.

Lemma frame_callbacks_well_formed delta (st : AppState N) :
  well_formed st -> well_formed (frame_callbacks delta st).1.
Proof.
  intros Hwf. pose proof Hwf as (Hnd & Hwm & Hwr).
  destruct (frame_callbacks_spec delta st Hwf) as (Hs & _ & _ & He).
  split; [| split].
  - rewrite Hs, <- list_fmap_compose.
    by rewrite (list_fmap_ext (fst ∘ shape_after delta (moving st) (rotating st)) fst
                  (shapes st)).
  - intros k o Ho. specialize (He KMove k). simpl in He. rewrite He in Ho.
    destruct (decide (k ∈ (shapes st).*1)); [| by apply Hwm].
    destruct (moving st !! k) as [o0|] eqn:E; [| done].
    injection Ho as <-. simpl. by apply Hwm.
  - intros k o Ho. specialize (He KRotate k). simpl in He. rewrite He in Ho.
    destruct (decide (k ∈ (shapes st).*1)); [| by apply Hwr].
    destruct (rotating st !! k) as [o0|] eqn:E; [| done].
    injection Ho as <-. simpl. by apply Hwr.
Qed.

(** What the callbacks of one frame do to the [i]-th shape and to the
    entries of its id. *)
Lemma frame_callbacks_track type delta (st : AppState N) i id mesh :
  well_formed st ->
  shapes st !! i = Some (id, mesh) ->
  shapes (frame_callbacks delta st).1 !! i
    = Some (id, mesh_after delta mesh (moving st !! id) (rotating st !! id))
  /\ entries type (frame_callbacks delta st).1 !! id
     = advance type delta <$> entries type st !! id
  /\ resolve_count type id (frame_callbacks delta st).1
     = (resolve_count type id st + length (fired type delta (entries type st !! id)))%nat
  /\ ((type, id) ∈ (frame_callbacks delta st).2
      <-> exists o, entries type st !! id = Some o
                    /\ finished (remaining (advance type delta o)) = true).
Proof.
  intros Hwf Hi. pose proof Hwf as (Hnd & Hwm & Hwr).
  destruct (frame_callbacks_spec delta st Hwf) as (Hs & Hq & Hc & He).
  assert (Hid : id ∈ (shapes st).*1).
  { apply list_elem_of_fmap. exists (id, mesh). split; [done |].
    by apply list_elem_of_lookup_2 with i. }
  split; [| split; [| split]].
  - rewrite Hs, list_lookup_fmap, Hi. reflexivity.
  - rewrite He. by rewrite decide_True.
  - unfold resolve_count. rewrite Hc, Hq, filter_app, length_app.
    rewrite count_shape_fired by done. rewrite decide_True by done.
    by destruct type.
  - rewrite Hq, (elem_of_shape_fired type delta _ _ _ id Hwm Hwr).
    replace (pick type (moving st) (rotating st)) with (entries type st)
      by (by destruct type).
    split; [by intros [_ ?] | by intros ?].
Qed.

Lemma frames_before_commit_well_formed deltas (st : AppState N) :
  well_formed st -> well_formed (frames_before_commit deltas st).
Proof.
  revert st. induction deltas as [|d ds IH]; intros st Hwf; [done |].
  apply IH, frame_callbacks_well_formed, Hwf.
Qed.

(** While the commit is outstanding the entry stays in its map, advanced
    frame by frame, and every frame that leaves it with |remaining| < 0.001
    calls its [resolve]. *)
Lemma frames_before_commit_track type deltas (st : AppState N) i id mesh o :
  well_formed st ->
  shapes st !! i = Some (id, mesh) ->
  entries type st !! id = Some o ->
  entries type (frames_before_commit deltas st) !! id = Some (advances type deltas o)
  /\ resolve_count type id (frames_before_commit deltas st)
     = (resolve_count type id st + resolved_in type deltas o)%nat
  /\ exists mesh', shapes (frames_before_commit deltas st) !! i = Some (id, mesh').
Proof.
  revert st mesh o. induction deltas as [|d ds IH]; intros st mesh o Hwf Hi Ho.
  - cbn. rewrite Ho. split; [done | split; [lia | eauto]].
  - change (frames_before_commit (d :: ds) st)
      with (frames_before_commit ds (frame_callbacks d st).1).
    destruct (frame_callbacks_track type d st i id mesh Hwf Hi) as (Hs & He & Hc & _).
    rewrite Ho in He, Hc. cbn [fmap option_fmap option_map fired] in He, Hc.
    destruct (IH _ _ _ (frame_callbacks_well_formed d st Hwf) Hs He)
      as (IHe & IHc & IHs).
    split; [exact IHe | split; [| exact IHs]].
    rewrite IHc, Hc. cbn [resolved_in].
    destruct (finished (remaining (advance type d o))); simpl; lia.
Qed.

End TrackFacts.

(** C2, as stated, fails on the program's own numbers.  [updateTransform]
    does not look whether an entry is complete, and [resolve] only queues
    the removal.  After a move of A1 by 1 and one frame of 4095/4096 s the
    entry is complete (1/4096 is left) and [resolve] has been called; when
    a second frame runs before React has committed, the entry is still in
    the map, the mesh is stepped again (to 6) and [resolve] is called a
    second time.  And in a scene in which two boxes carry the id A1, one
    committed frame calls the [resolve] of the one entry twice. *)
Lemma resolve_called_twice :
  moving Sample.late_once !! "A1" = Some (mkAnimObj (Some AxisX) 0x1p-12%float "A1")
  /\ finished 0x1p-12%float = true
  /\ calls Sample.late_once = [(KMove, "A1")]
  /\ shapes Sample.late_once = [("A1", mkMesh 5.999755859375 0 5 0)]%float
  /\ moving Sample.late_twice !! "A1" = Some (mkAnimObj (Some AxisX) 0%float "A1")
  /\ calls Sample.late_twice = [(KMove, "A1"); (KMove, "A1")]
  /\ shapes Sample.late_twice = [("A1", mkMesh 6 0 5 0)]%float
  /\ calls Sample.twins_move = [(KMove, "A1"); (KMove, "A1")].
Proof. vm_compute. repeat split. Qed.

(** C2, amended: take a scene with distinct box ids, any state [st] the
    events lead to, and a live entry of either kind of a box that is shown.
    The callbacks of a frame step the mesh, advance the entry and keep it in
    its map; they call its [resolve] exactly when the step leaves
    |remaining| < 0.001, and that call queues the removal, which the commit
    carries out.  While the commit is outstanding, every further frame steps
    the mesh and the entry again and calls [resolve] again whenever
    |remaining| < 0.001 after its step.  When every frame is committed before
    the next: whatever event comes next, [resolve] is called once if that
    event takes the entry out of its map and not at all otherwise; a frame
    removes the entry exactly when, after the step, |remaining| < 0.001;
    over any run of frames its [resolve] has been called once if the entry
    is gone and never while it is live; and once it is gone, further frames
    call nothing for it and leave the position (for a move) or the Y rotation
    (for a rotation) of the mesh as it is. *)
Theorem resolve_called_when_finished {N : Type} `{JsNumber N}
    (parseFloat : string -> option N) (items : list (Box N)) (evs : list (Event N))
    (type : Kind) (i : nat) (id : string) (mesh : Mesh N) (o : AnimObj N)
    (e : Event N) (delta : N) (late deltas more : list N) :
  NoDup (box_id <$> items) ->
  let st := run parseFloat evs (initial items) in
  shapes st !! i = Some (id, mesh) ->
  entries type st !! id = Some o ->
  let called := frame_callbacks delta st in
  let sb := frames_before_commit late st in
  let st' := frames deltas st in
  (entries type called.1 !! id = Some (advance type delta o)
   /\ shapes called.1 !! i
      = Some (id, mesh_after delta mesh (moving st !! id) (rotating st !! id))
   /\ resolve_count type id called.1
      = (resolve_count type id st
         + if finished (remaining (advance type delta o)) then 1 else 0)%nat
   /\ ((type, id) ∈ called.2 <-> finished (remaining (advance type delta o)) = true)
   /\ frame delta st = commit called.2 called.1)
  /\ (entries type sb !! id = Some (advances type late o)
      /\ resolve_count type id sb
         = (resolve_count type id st + resolved_in type late o)%nat
      /\ exists mesh_b,
           shapes sb !! i = Some (id, mesh_b)
           /\ shapes (frame_callbacks delta sb).1 !! i
              = Some (id, mesh_after delta mesh_b (moving sb !! id) (rotating sb !! id)))
  /\ resolve_count type id (handle parseFloat st e)
     = (resolve_count type id st
        + match entries type (handle parseFloat st e) !! id with
          | Some _ => 0
          | None => 1
          end)%nat
  /\ entries type (frame delta st) !! id
     = (if finished (remaining (advance type delta o)) then None
        else Some (advance type delta o))
  /\ resolve_count type id st'
     = (resolve_count type id st
        + match entries type st' !! id with Some _ => 0 | None => 1 end)%nat
  /\ (entries type st' !! id = None ->
      entries type (frames more st') !! id = None
      /\ resolve_count type id (frames more st') = resolve_count type id st'
      /\ exists mesh' mesh'',
           shapes st' !! i = Some (id, mesh')
           /\ shapes (frames more st') !! i = Some (id, mesh'')
           /\ pose_of type mesh'' = pose_of type mesh').
Proof.
  intros Hnd st Hi Ho called sb st'.
  assert (Hwf : well_formed st)
    by apply run_well_formed, initial_well_formed, Hnd.
  assert (Hwf' : well_formed st') by apply frames_well_formed, Hwf.
  subst called sb.
  split; [| split; [| split; [| split; [| split]]]].
  - destruct (frame_callbacks_track type delta st i id mesh Hwf Hi)
      as (Hs & He & Hc & Hq).
    rewrite Ho in He, Hc, Hq. cbn [fired] in Hc.
    split; [exact He | split; [exact Hs | split; [| split]]].
    + rewrite Hc. by destruct (finished (remaining (advance type delta o))).
    + rewrite Hq. split; [by intros (o' & [= <-] & Hf) | eauto].
    + apply frame_commits.
  - destruct (frames_before_commit_track type late st i id mesh o Hwf Hi Ho)
      as (He & Hc & mesh_b & Hs).
    split; [exact He | split; [exact Hc |]]. exists mesh_b. split; [exact Hs |].
    apply (frame_callbacks_track type delta _ i id mesh_b); [| exact Hs].
    apply frames_before_commit_well_formed, Hwf.
  - rewrite (handle_resolve_count parseFloat type id st e Hwf), Ho. reflexivity.
  - destruct (frame_track type delta st i id mesh Hwf Hi) as (_ & He & _).
    rewrite He, Ho. reflexivity.
  - apply (frames_resolve_count type deltas st i id mesh o Hwf Hi Ho).
  - intros Hgone.
    assert (Hs' : exists mesh', shapes st' !! i = Some (id, mesh'))
      by (destruct (frames_track deltas st i id mesh Hwf Hi) as (Hs' & _); eauto).
    destruct Hs' as [mesh' Hs'].
    destruct (frames_absent type more st' i id mesh' Hwf' Hs' Hgone)
      as (He & Hc & mesh'' & Hs'' & Hp).
    split; [exact He | split; [exact Hc |]]. eauto.
Qed.

Lemma resolve_called_when_finished_witness :
  resolve_count KMove "A1"
    (frames [2; 2; 2]%Q (handleMove parseFloat_decimal Sample.readyQ)) = 1%nat
  /\ resolve_count KMove "A1"
       (frames [1]%Q (frames [2; 2; 2]%Q (handleMove parseFloat_decimal Sample.readyQ)))
     = 1%nat
  /\ resolve_count KMove "A1"
       (frames_before_commit [2; 2; 2; 1]%Q
          (handleMove parseFloat_decimal Sample.readyQ)) = 2%nat.
Proof.
  destruct (resolve_called_when_finished parseFloat_decimal [Sample.palletQ]
              [Select "A1"; SetAxis AxisY; SetDistance "5"; ClickMove] KMove 0 "A1"
              (mkMesh 5 0 5 0)%Q (mkAnimObj (Some AxisY) 5%Q "A1")
              ClickMove 2%Q [2; 2; 2; 1]%Q [2; 2; 2]%Q [1]%Q)
    as (_ & (_ & Hlate & _) & _ & _ & Hcount & Hgone).
  - apply NoDup_singleton.
  - reflexivity.
  - reflexivity.
  - destruct Hgone as (_ & Hsame & _); [reflexivity |].
    split; [exact Hcount | split; [exact (eq_trans Hsame Hcount) |]].
    exact (eq_trans Hlate eq_refl).
Defined.

(** ** The animator in exact arithmetic *)

Module ExactFacts.

Open Scope Q_scope.

Lemma finished_iff (rem : Q) : finished rem = true <-> Qabs rem < Exact.eps.
Proof.
  unfold finished. cbn. unfold Exact.lt.
  rewrite negb_true_iff, <- not_true_iff_false, Qle_bool_iff.
  split; [apply Qnot_le_lt | apply Qlt_not_le].
Qed.

Lemma not_finished_iff (rem : Q) : finished rem = false <-> Exact.eps <= Qabs rem.
Proof.
  unfold finished. cbn. unfold Exact.lt.
  rewrite negb_false_iff, Qle_bool_iff. reflexivity.
Qed.

Lemma sign_cases (x : Q) :
  (0 < x /\ Exact.sign x = 1 /\ Qabs x == x)
  \/ (x == 0 /\ Exact.sign x = 0 /\ Qabs x == 0)
  \/ (x < 0 /\ Exact.sign x = -1 /\ Qabs x == - x).
Proof.
  destruct x as [[|n|n] d]; unfold Exact.sign; simpl.
  - right; left. repeat split.
  - left. repeat split.
  - right; right. repeat split.
Qed.

Lemma speed_pos (type : Kind) : 0 < speed_of (N := Q) type.
Proof. destruct type; reflexivity. Qed.

(** The step never passes the target: what is left keeps its sign, and
    when no time runs backwards it shrinks by the clamped amount. *)
Lemma step_no_overshoot (type : Kind) (rem delta : Q) :
  let rem' := num_sub rem (step_of type rem delta) in
  (0 <= rem -> 0 <= rem')
  /\ (rem <= 0 -> rem' <= 0)
  /\ (0 <= delta ->
      Qabs rem' == Qabs rem - Qmin (Qabs rem) (speed_of type * delta)
      /\ Qabs rem' <= Qabs rem).
Proof.
  intros rem'. subst rem'. unfold step_of.
  cbn [num_sub num_mul Math_sign Math_min Math_abs Exact.number].
  pose proof (speed_pos type) as Hs.
  set (sd := speed_of type * delta).
  assert (Hsd : 0 <= delta -> 0 <= sd) by (intros; unfold sd; nra).
  destruct (Q.min_spec (Qabs rem) sd) as [[Hlt Hmin]|[Hle Hmin]];
    destruct (sign_cases rem) as [(Hx & -> & Habs)|[(Hx & -> & Habs)|(Hx & -> & Habs)]];
    rewrite Hmin.
  all: repeat split; intros; try specialize (Hsd ltac:(assumption)); try lra.
  all: apply Qabs_case; intros; lra.
Qed.

Lemma position_get_add_same (mesh : Mesh Q) a s :
  position_get (position_add mesh (Some a) s) a = position_get mesh a + s.
Proof. by destruct a. Qed.

Lemma position_get_add_other (mesh : Mesh Q) a b s :
  b <> a -> position_get (position_add mesh (Some a) s) b = position_get mesh b.
Proof. by destruct a, b. Qed.

Lemma rotation_y_position_add (mesh : Mesh Q) a s :
  rotation_y (position_add mesh a s) = rotation_y mesh.
Proof. by destruct a as [[]|]. Qed.

(** A move entry on its own: the position along the axis plus what
    remains is constant, and the entry goes at the first frame that leaves
    less than 0.001. *)
Lemma track_move (deltas : list Q) (mesh : Mesh Q) (o : AnimObj Q) a :
  axis o = Some a ->
  let x := track deltas (mesh, Some o, None) in
  x.2 = None
  /\ rotation_y x.1.1 = rotation_y mesh
  /\ (forall b, b <> a -> position_get x.1.1 b = position_get mesh b)
  /\ match x.1.2 with
     | Some o' =>
         axis o' = Some a
         /\ position_get x.1.1 a + remaining o' == position_get mesh a + remaining o
         /\ (deltas <> [] -> Exact.eps <= Qabs (remaining o'))
     | None =>
         Qabs (position_get mesh a + remaining o - position_get x.1.1 a) < Exact.eps
     end.
Proof.
  revert mesh o. induction deltas as [|d ds IH]; intros mesh o Ha x; subst x.
  - cbn. split; [done | split; [done | split; [done |]]].
    split; [done | split; [apply Qeq_refl | done]].
  - change (track (d :: ds) (mesh, Some o, None))
      with (track ds (track_step d (mesh, Some o, None))).
    unfold track_step. cbn [fst snd mesh_after after]. rewrite Ha.
    set (step := step_of KMove (remaining o) d).
    destruct (finished (remaining (advance KMove d o))) eqn:Hf.
    + rewrite track_idle. cbn [fst snd].
      split; [done | split; [apply rotation_y_position_add | split]].
      * intros b Hb. by apply position_get_add_other.
      * rewrite position_get_add_same. apply finished_iff in Hf.
        cbn [advance remaining num_sub Exact.number] in Hf. fold step in Hf.
        apply Qabs_Qlt_condition in Hf. apply Qabs_Qlt_condition. lra.
    + specialize (IH (position_add mesh (Some a) step) (advance KMove d o) Ha).
      cbn zeta in IH. destruct IH as (IH2 & IHr & IHo & IHm).
      split; [exact IH2 | split; [| split]].
      * rewrite IHr. apply rotation_y_position_add.
      * intros b Hb. rewrite (IHo b Hb). by apply position_get_add_other.
      * destruct (track ds _).1.2 as [o'|] eqn:Ho'.
        -- destruct IHm as (Ha' & Hinv & Heps). split; [exact Ha' | split].
           ++ rewrite Hinv, position_get_add_same.
              cbn [advance remaining num_sub Exact.number]. fold step. ring.
           ++ intros _. destruct ds as [|d' ds'].
              ** cbn in Ho'. injection Ho' as <-. by apply not_finished_iff.
              ** by apply Heps.
        -- rewrite position_get_add_same in IHm.
           cbn [advance remaining num_sub Exact.number] in IHm. fold step in IHm.
           apply Qabs_Qlt_condition in IHm. apply Qabs_Qlt_condition. lra.
Qed.

(** The same for a rotate entry and the Y rotation. *)
Lemma track_rotate (deltas : list Q) (mesh : Mesh Q) (o : AnimObj Q) :
  let x := track deltas (mesh, None, Some o) in
  x.1.2 = None
  /\ pose_of KMove x.1.1 = pose_of KMove mesh
  /\ match x.2 with
     | Some o' =>
         rotation_y x.1.1 + remaining o' == rotation_y mesh + remaining o
         /\ (deltas <> [] -> Exact.eps <= Qabs (remaining o'))
     | None =>
         Qabs (rotation_y mesh + remaining o - rotation_y x.1.1) < Exact.eps
     end.
Proof.
  revert mesh o. induction deltas as [|d ds IH]; intros mesh o x; subst x.
  - cbn. split; [done | split; [done |]]. split; [apply Qeq_refl | done].
  - change (track (d :: ds) (mesh, None, Some o))
      with (track ds (track_step d (mesh, None, Some o))).
    unfold track_step. cbn [fst snd mesh_after after].
    set (step := step_of KRotate (remaining o) d).
    destruct (finished (remaining (advance KRotate d o))) eqn:Hf.
    + rewrite track_idle. cbn [fst snd].
      split; [done | split; [done |]].
      apply finished_iff in Hf.
      cbn [advance remaining num_sub Exact.number] in Hf. fold step in Hf.
      cbn [rotation_add rotation_y num_add Exact.number].
      apply Qabs_Qlt_condition in Hf. apply Qabs_Qlt_condition. lra.
    + specialize (IH (rotation_add mesh step) (advance KRotate d o)).
      cbn zeta in IH. destruct IH as (IH1 & IHp & IHr).
      split; [exact IH1 | split; [by rewrite IHp |]].
      destruct (track ds _).2 as [o'|] eqn:Ho'.
      * destruct IHr as (Hinv & Heps). split.
        -- rewrite Hinv.
           cbn [advance remaining rotation_add rotation_y num_sub num_add Exact.number].
           fold step. ring.
        -- intros _. destruct ds as [|d' ds'].
           ++ cbn in Ho'. injection Ho' as <-. by apply not_finished_iff.
           ++ by apply Heps.
      * cbn [advance remaining rotation_add rotation_y num_sub num_add Exact.number]
          in IHr. fold step in IHr.
        apply Qabs_Qlt_condition in IHr. apply Qabs_Qlt_condition. lra.
Qed.

Lemma Qnat_S n : Qnat (S n) == Qnat n + 1.
Proof.
  unfold Qnat. rewrite Nat2Z.inj_succ, <- Z.add_1_r, inject_Z_plus. reflexivity.
Qed.

Lemma Qnat_le n m : (n <= m)%nat -> Qnat n <= Qnat m.
Proof. intros Hle. unfold Qnat. rewrite <- Zle_Qle. lia. Qed.

(** With every elapsed time at least [eps_t] > 0, an entry is gone after
    any [n] >= 1 frames such that n * speed * eps_t covers |remaining|. *)
Lemma after_fold_gone type (deltas : list Q) (eps_t : Q) (o : AnimObj Q) :
  0 < eps_t ->
  Forall (λ d, eps_t <= d) deltas ->
  deltas <> [] ->
  Qabs (remaining o) <= Qnat (length deltas) * (speed_of type * eps_t) ->
  foldl (λ x d, after type d x) (Some o) deltas = None.
Proof.
  intros He. revert o. induction deltas as [|d ds IH]; intros o Hall Hne Hbound;
    [done |].
  apply Forall_cons in Hall as [Hd Hall]. cbn [foldl after].
  destruct (finished (remaining (advance type d o))) eqn:Hf;
    [apply after_fold_None |].
  pose proof (speed_pos type) as Hs.
  destruct (step_no_overshoot type (remaining o) d) as (_ & _ & Habs).
  destruct Habs as [Habs _]; [lra |].
  apply not_finished_iff in Hf. cbn [advance remaining] in Hf.
  assert (Heps : 0 < Exact.eps) by reflexivity.
  assert (Hsd : speed_of type * eps_t <= speed_of type * d) by nra.
  cbn [length] in Hbound. rewrite Qnat_S in Hbound.
  destruct (Q.min_spec (Qabs (remaining o)) (speed_of type * d))
    as [[Hlt Hmin]|[Hle Hmin]]; rewrite Hmin in Habs.
  - exfalso. lra.
  - destruct ds as [|d' ds'].
    + exfalso. change (Qnat (length [])) with 0 in Hbound. lra.
    + apply IH; [exact Hall | done |]. cbn [advance remaining]. lra.
Qed.

(** Some number of frames is enough for any entry. *)
Lemma frames_needed type (eps_t : Q) (o : AnimObj Q) :
  0 < eps_t ->
  exists n : nat, (0 < n)%nat
    /\ Qabs (remaining o) <= Qnat n * (speed_of type * eps_t).
Proof.
  intros He. pose proof (speed_pos type) as Hs.
  set (c := speed_of type * eps_t). assert (Hc : 0 < c) by (unfold c; nra).
  set (q := Qabs (remaining o) / c).
  exists (S (Z.to_nat (Qceiling q))). split; [lia |].
  assert (Hq : 0 <= q).
  { unfold q. apply Qle_shift_div_l; [exact Hc |]. pose proof (Qabs_nonneg (remaining o)). lra. }
  assert (Hceil : q <= Qnat (Z.to_nat (Qceiling q))).
  { unfold Qnat. rewrite Z2Nat.id.
    - apply Qle_ceiling.
    - apply Qceiling_resp_le in Hq. exact Hq. }
  rewrite Qnat_S.
  assert (Habs : Qabs (remaining o) == q * c) by (unfold q; field; lra).
  rewrite Habs. nra.
Qed.

End ExactFacts.

(** C4: the step of one advance is sign(remaining) * min(|remaining|,
    speed * t) with speed 1 for a move and [Math.PI] for a rotation; a move
    adds it to the entry's axis of the position and to nothing else, a
    rotation to the Y rotation and to nothing else; the step is taken off
    [remaining] and the completion test is |remaining| < 0.001 on the result.
    In exact arithmetic what remains never changes sign, and for t >= 0 its
    magnitude goes down by exactly the clamped amount. *)
Theorem updateTransform_step :
  (forall (N : Type) (HN : JsNumber N) (m : Mesh N) (o : AnimObj N)
          (type : Kind) (t : N),
     let speed := match type with KMove => num_of_Z 1 | KRotate => Math_PI end in
     let step := num_mul (Math_sign (remaining o))
                   (Math_min (Math_abs (remaining o)) (num_mul speed t)) in
     updateTransform (Some m) (Some o) type t =
       (Some (match type, axis o with
              | KMove, Some AxisX =>
                  mkMesh (num_add (position_x m) step) (position_y m)
                    (position_z m) (rotation_y m)
              | KMove, Some AxisY =>
                  mkMesh (position_x m) (num_add (position_y m) step)
                    (position_z m) (rotation_y m)
              | KMove, Some AxisZ =>
                  mkMesh (position_x m) (position_y m)
                    (num_add (position_z m) step) (rotation_y m)
              | KMove, None => m
              | KRotate, _ =>
                  mkMesh (position_x m) (position_y m) (position_z m)
                    (num_add (rotation_y m) step)
              end),
        Some (mkAnimObj (axis o) (num_sub (remaining o) step) (resolve o)),
        num_lt (Math_abs (num_sub (remaining o) step)) num_eps))
  /\ (forall (type : Kind) (rem t : Q),
        let speed := match type with KMove => 1 | KRotate => Exact.PI end in
        let rem' := rem - Exact.sign rem * Qmin (Qabs rem) (speed * t) in
        (0 <= rem -> 0 <= rem')
        /\ (rem <= 0 -> rem' <= 0)
        /\ (0 <= t -> Qabs rem' == Qabs rem - Qmin (Qabs rem) (speed * t)
                      /\ Qabs rem' <= Qabs rem))%Q.
Proof.
  split.
  - intros N HN m o type t speed step.
    rewrite updateTransform_present. unfold advance, finished, step_of, speed_of.
    fold speed. fold step. cbn [remaining].
    destruct type; [| reflexivity].
    unfold position_add. destruct (axis o) as [[]|]; reflexivity.
  - intros type rem t speed rem'.
    pose proof (ExactFacts.step_no_overshoot type rem t) as Hstep.
    unfold step_of in Hstep.
    cbn [num_sub num_mul Math_sign Math_min Math_abs Exact.number] in Hstep.
    destruct type; exact Hstep.
Qed.

Lemma updateTransform_step_witness :
  (Qabs (2 - Exact.sign 2 * Qmin (Qabs 2) (1 * (1 # 2))) <= Qabs 2)%Q.
Proof.
  destruct updateTransform_step as [_ Hexact].
  destruct (Hexact KMove 2 (1 # 2))%Q as (_ & _ & Hshrink).
  apply Hshrink. discriminate.
Defined.

(** The end-to-end run of the specification on binary64 numbers: select A1,
    axis y, distance 5, click Move; after 320 frames of 1/64 s the box has
    moved by 5 along y, its entry is gone and [resolve] was called once. *)
Example move_by_five_binary64 :
  let st := frames (repeat 0x1p-6%float 320)
              (run parseFloat_decimal
                 [Select "A1"; SetAxis AxisY; SetDistance "5"; ClickMove]
                 (initial [Sample.palletF])) in
  moving st !! "A1" = None
  /\ shapes st = [("A1", mkMesh 5 5 5 0)]%float
  /\ calls st = [(KMove, "A1")].
Proof. vm_compute. repeat split. Qed.

(** C3, as stated, fails on the program's own numbers: a move of A1 by 1
    is complete after one frame of 4095/4096 s, its entry is removed and
    [resolve] has been called once, but the box has moved by 4095/4096,
    not by 1. *)
Lemma move_stops_short :
  moving Sample.short_move !! "A1" = None
  /\ calls Sample.short_move = [(KMove, "A1")]
  /\ shapes (initial [Sample.palletF]) = [("A1", mkMesh 5 0 5 0)]%float
  /\ shapes Sample.short_move = [("A1", mkMesh 5.999755859375 0 5 0)]%float
  /\ PrimFloat.eqb (5.999755859375 - 5) 1 = false.
Proof. vm_compute. repeat split. Qed.

(** C3, amended: in exact arithmetic, after any frames that follow an
    admitted move request by [dist] along the selected axis, the other two
    coordinates and the Y rotation of the mesh are as before; while the
    entry is live the displacement so far plus [remaining] is [dist], and
    [remaining] is at least 0.001 in magnitude once a frame has run; when
    the entry is gone the displacement is within 0.001 of [dist] (and need
    not be equal to it). *)
Theorem move_displacement (parseFloat : string -> option Q)
    (items : list (Box Q)) (evs : list (Event Q)) (i : nat) (id : string)
    (mesh : Mesh Q) (dist : Q) (deltas : list Q) :
  NoDup (box_id <$> items) ->
  let st := run parseFloat evs (initial items) in
  shapes st !! i = Some (id, mesh) ->
  selected st = Some id ->
  parseFloat (distance st) = Some dist ->
  ~ (dist == 0)%Q ->
  moving st !! id = None ->
  rotating st !! id = None ->
  let st' := frames deltas (handleMove parseFloat st) in
  let a := axis_sel st in
  exists mesh',
    shapes st' !! i = Some (id, mesh')
    /\ rotation_y mesh' = rotation_y mesh
    /\ (forall b, b <> a -> position_get mesh' b = position_get mesh b)
    /\ match moving st' !! id with
       | Some o =>
           (position_get mesh' a + remaining o == position_get mesh a + dist)%Q
           /\ (deltas <> [] -> (Exact.eps <= Qabs (remaining o))%Q)
       | None =>
           (Qabs (position_get mesh a + dist - position_get mesh' a) < Exact.eps)%Q
       end.
Proof.
  intros Hnd st Hi Hsel Hp Hnz Hm Hr st' a.
  assert (Hwf : well_formed st)
    by apply run_well_formed, initial_well_formed, Hnd.
  assert (Hwf1 : well_formed (handleMove parseFloat st))
    by apply (handle_well_formed parseFloat st ClickMove Hwf).
  assert (Hz : num_is_zero dist = false).
  { cbn. apply not_true_iff_false. by rewrite Qeq_bool_iff. }
  assert (Hn : num_isNaN dist = false) by reflexivity.
  subst st'. revert Hwf1.
  rewrite (handleMove_admitted parseFloat st id dist Hsel Hp Hn Hz Hm Hr).
  intros Hwf1.
  destruct (frames_track deltas _ i id mesh Hwf1 Hi) as (Hs' & Hm' & _).
  cbn [moving rotating set_moving] in Hs', Hm'.
  rewrite lookup_insert_eq, Hr in Hs', Hm'.
  set (o0 := mkAnimObj (Some (axis_sel st)) dist id) in *.
  destruct (ExactFacts.track_move deltas mesh o0 a eq_refl)
    as (_ & Hrot & Hother & Hinv).
  eexists. split; [exact Hs' | split; [exact Hrot | split; [exact Hother |]]].
  rewrite Hm'. destruct (track deltas (mesh, Some o0, None)).1.2 as [o'|].
  - destruct Hinv as (_ & Hsum & Hbig). split; [exact Hsum | exact Hbig].
  - exact Hinv.
Qed.

Lemma move_displacement_witness :
  exists mesh',
    shapes (frames [2; 2; 2]%Q (handleMove parseFloat_decimal Sample.readyQ))
      !! 0%nat = Some ("A1", mesh')
    /\ rotation_y mesh' = 0%Q.
Proof.
  destruct (move_displacement parseFloat_decimal [Sample.palletQ]
              [Select "A1"; SetAxis AxisY; SetDistance "5"] 0 "A1"
              (mkMesh 5 0 5 0)%Q 5%Q [2; 2; 2]%Q)
    as (mesh' & Hs & Hr & _).
  - apply NoDup_singleton.
  - reflexivity.
  - reflexivity.
  - reflexivity.
  - discriminate.
  - reflexivity.
  - reflexivity.
  - exists mesh'. split; [exact Hs | exact Hr].
Defined.

(** C7, as stated, fails on the program's own numbers: with the move of A1
    by 10^15 requested and every frame 1/64 s long, the step is lost in the
    rounding of [remaining -= step], so however many frames run, the entry
    is still live. *)
Lemma far_move_never_completes :
  ~ exists n : nat,
      moving (frames (repeat 0x1p-6%float n) Sample.far_move) !! "A1" = None.
Proof.
  intros [n Hn].
  assert (Hwf : well_formed Sample.far_move).
  { apply run_well_formed, initial_well_formed, NoDup_singleton. }
  change (moving (frames (repeat 0x1p-6%float n) Sample.far_move))
    with (entries KMove (frames (repeat 0x1p-6%float n) Sample.far_move)) in Hn.
  rewrite (frames_entries KMove _ _ 0 "A1" (mkMesh 5 0 5 0)%float Hwf eq_refl) in Hn.
  assert (Hlive : forall k,
             foldl (λ x d, after KMove d x)
               (Some (mkAnimObj (Some AxisX) 1e15%float "A1"))
               (repeat 0x1p-6%float k)
             = Some (mkAnimObj (Some AxisX) 1e15%float "A1")).
  { induction k as [|k IH]; [reflexivity | exact IH]. }
  change (entries KMove Sample.far_move !! "A1")
    with (Some (mkAnimObj (Some AxisX) 1e15%float "A1")) in Hn.
  rewrite Hlive in Hn. discriminate.
Qed.

(** C7, amended: in exact arithmetic, for every live entry of a shown box
    (whatever its remaining delta) and every sequence of elapsed times that
    are all at least some positive constant, there is a number of frames
    from which on the entry is gone.  On binary64 numbers this needs the
    step not to be absorbed by rounding. *)
Theorem animation_completes (parseFloat : string -> option Q)
    (items : list (Box Q)) (evs : list (Event Q)) (type : Kind) (i : nat)
    (id : string) (mesh : Mesh Q) (o : AnimObj Q) (ts : nat -> Q) (eps_t : Q) :
  NoDup (box_id <$> items) ->
  let st := run parseFloat evs (initial items) in
  shapes st !! i = Some (id, mesh) ->
  entries type st !! id = Some o ->
  (0 < eps_t)%Q ->
  (forall k, (eps_t <= ts k)%Q) ->
  exists n : nat, forall m : nat, (n <= m)%nat ->
    entries type (frames (ts <$> seq 0 m) st) !! id = None.
Proof.
  intros Hnd st Hi Ho He Hts.
  assert (Hwf : well_formed st)
    by apply run_well_formed, initial_well_formed, Hnd.
  destruct (ExactFacts.frames_needed type eps_t o He) as (n & Hn & Hbound).
  exists n. intros m Hm.
  rewrite (frames_entries type _ st i id mesh Hwf Hi), Ho.
  apply (ExactFacts.after_fold_gone type _ eps_t o He).
  - apply Forall_fmap, Forall_forall. intros k _. apply Hts.
  - destruct m; [lia | done].
  - rewrite length_fmap, length_seq.
    pose proof (ExactFacts.Qnat_le n m Hm) as Hnm.
    pose proof (ExactFacts.speed_pos type) as Hs.
    assert (0 < speed_of type * eps_t)%Q by nra.
    eapply Qle_trans; [exact Hbound |]. nra.
Qed.

Lemma animation_completes_witness :
  exists n : nat, forall m : nat, (n <= m)%nat ->
    moving (frames ((λ _, 1 # 60)%Q <$> seq 0 m)
              (handleMove parseFloat_decimal Sample.readyQ)) !! "A1" = None.
Proof.
  apply (animation_completes parseFloat_decimal [Sample.palletQ]
           [Select "A1"; SetAxis AxisY; SetDistance "5"; ClickMove] KMove 0 "A1"
           (mkMesh 5 0 5 0)%Q (mkAnimObj (Some AxisY) 5%Q "A1")
           (λ _, 1 # 60)%Q (1 # 60)%Q).
  - apply NoDup_singleton.
  - reflexivity.
  - reflexivity.
  - reflexivity.
  - intros k. discriminate.
Defined.

(** C9, as stated, fails on the program's own numbers: two rotations of A1,
    each run to completion by one frame of 4095/4096 s, leave the Y rotation
    strictly between 0 and 2 * [Math.PI], which is below 2π: the mesh is not
    back at its original Y rotation modulo 2π. *)
Lemma two_turns_fall_short :
  rotating Sample.two_turns !! "A1" = None
  /\ calls Sample.two_turns = [(KRotate, "A1"); (KRotate, "A1")]
  /\ shapes (initial [Sample.palletF]) = [("A1", mkMesh 5 0 5 0)]%float
  /\ shapes Sample.two_turns = [("A1", mkMesh 5 0 5 0x1.92069348ee8d5p+2)]%float
  /\ PrimFloat.ltb 0 0x1.92069348ee8d5p+2 = true
  /\ PrimFloat.ltb 0x1.92069348ee8d5p+2 (2 * F64.PI) = true.
Proof. vm_compute. repeat split. Qed.

(** C9, amended: every admitted rotate request stores an entry with
    remaining = [Math.PI], whatever the Y rotation of the mesh; in exact
    arithmetic, after two rotations of a box run to completion one after the
    other, its position is unchanged and its Y rotation has grown by 2 *
    [Math.PI] up to less than 0.002 (each rotation stops within 0.001 of its
    target). *)
Theorem two_rotations (parseFloat : string -> option Q)
    (items : list (Box Q)) (evs : list (Event Q)) (i : nat) (id : string)
    (mesh : Mesh Q) (deltas1 deltas2 : list Q) :
  NoDup (box_id <$> items) ->
  let st := run parseFloat evs (initial items) in
  shapes st !! i = Some (id, mesh) ->
  selected st = Some id ->
  moving st !! id = None ->
  rotating st !! id = None ->
  let st1 := frames deltas1 (handleRotate st) in
  rotating st1 !! id = None ->
  let st2 := frames deltas2 (handleRotate st1) in
  rotating st2 !! id = None ->
  rotating (handleRotate st) !! id = Some (mkAnimObj None Exact.PI id)
  /\ rotating (handleRotate st1) !! id = Some (mkAnimObj None Exact.PI id)
  /\ exists mesh2,
       shapes st2 !! i = Some (id, mesh2)
       /\ pose_of KMove mesh2 = pose_of KMove mesh
       /\ (Qabs (rotation_y mesh2 - rotation_y mesh - 2 * Exact.PI)
           < 2 * Exact.eps)%Q.
Proof.
  intros Hnd st Hi Hsel Hm Hr st1 Hdone1 st2 Hdone2.
  assert (Hwf : well_formed st)
    by apply run_well_formed, initial_well_formed, Hnd.
  (* first rotation *)
  assert (Hwf0 : well_formed (handleRotate st))
    by apply (handle_well_formed parseFloat st ClickRotate Hwf).
  assert (Hwf1 : well_formed st1) by apply frames_well_formed, Hwf0.
  pose proof (handleRotate_admitted st id Hsel Hm Hr) as E0.
  assert (Hent0 : rotating (handleRotate st) !! id = Some (mkAnimObj None Exact.PI id))
    by (rewrite E0; apply lookup_insert_eq).
  assert (Hmov0 : moving (handleRotate st) !! id = None) by (by rewrite E0).
  assert (Hi0 : shapes (handleRotate st) !! i = Some (id, mesh)) by (by rewrite E0).
  destruct (frames_track deltas1 _ i id mesh Hwf0 Hi0) as (Hs1 & _ & Hr1).
  fold st1 in Hs1, Hr1. rewrite Hmov0, Hent0 in Hs1, Hr1.
  destruct (ExactFacts.track_rotate deltas1 mesh (mkAnimObj None Exact.PI id))
    as (_ & Hp1 & Hinv1).
  rewrite <- Hr1, Hdone1 in Hinv1. cbn [remaining] in Hinv1.
  set (mesh1 := (track deltas1 (mesh, None, Some (mkAnimObj None Exact.PI id))).1.1) in *.
  (* second rotation *)
  assert (Hsel1 : selected st1 = Some id).
  { unfold st1. rewrite frames_selected, E0. exact Hsel. }
  assert (Hm1 : moving st1 !! id = None)
    by apply (frames_keep_absent KMove deltas1 _ id Hmov0).
  assert (Hwf1' : well_formed (handleRotate st1))
    by apply (handle_well_formed parseFloat st1 ClickRotate Hwf1).
  pose proof (handleRotate_admitted st1 id Hsel1 Hm1 Hdone1) as E1.
  assert (Hent1 : rotating (handleRotate st1) !! id = Some (mkAnimObj None Exact.PI id))
    by (rewrite E1; apply lookup_insert_eq).
  assert (Hmov1 : moving (handleRotate st1) !! id = None) by (by rewrite E1).
  assert (Hi1 : shapes (handleRotate st1) !! i = Some (id, mesh1)) by (by rewrite E1).
  destruct (frames_track deltas2 _ i id mesh1 Hwf1' Hi1) as (Hs2 & _ & Hr2).
  fold st2 in Hs2, Hr2. rewrite Hmov1, Hent1 in Hs2, Hr2.
  destruct (ExactFacts.track_rotate deltas2 mesh1 (mkAnimObj None Exact.PI id))
    as (_ & Hp2 & Hinv2).
  rewrite <- Hr2, Hdone2 in Hinv2. cbn [remaining] in Hinv2.
  split; [exact Hent0 | split; [exact Hent1 |]].
  eexists. split; [exact Hs2 | split; [by rewrite Hp2 |]].
  apply Qabs_Qlt_condition in Hinv1, Hinv2. apply Qabs_Qlt_condition.
  lra.
Qed.

Lemma two_rotations_witness :
  rotating (handleRotate
              (run parseFloat_decimal [Select "A1"] (initial [Sample.palletQ])))
    !! "A1" = Some (mkAnimObj None Exact.PI "A1").
Proof.
  destruct (two_rotations parseFloat_decimal [Sample.palletQ] [Select "A1"] 0 "A1"
              (mkMesh 5 0 5 0)%Q [1; 1]%Q [1 # 2; 1 # 2; 1 # 2]%Q)
    as (Hfirst & _).
  - apply NoDup_singleton.
  - reflexivity.
  - reflexivity.
  - reflexivity.
  - reflexivity.
  - reflexivity.
  - reflexivity.
  - exact Hfirst.
Defined.


(** * Further properties of the component file *)

(** ** More on grid expansion *)

Section GridMore.

Context {N : Type} `{JsNumber N}.

Lemma length_bind_singleton {A B : Type} (f : A -> B) (l : list A) :
  length (l ≫= λ x, [f x]) = length l.
Proof. induction l as [|x l IH]; [done |]. rewrite bind_cons. simpl. by rewrite IH. Qed.

Lemma length_cells nrows ncols : length (cells nrows ncols) = (nrows * ncols)%nat.
Proof.
  unfold cells. rewrite <- (length_seq nrows 0) at 2.
  induction (seq 0 nrows) as [|r l IH]; [done |].
  rewrite bind_cons, length_app, IH, length_bind_singleton, length_seq.
  simpl. lia.
Qed.

Lemma cells_empty nrows ncols :
  nrows = 0%nat \/ ncols = 0%nat -> cells nrows ncols = [].
Proof.
  intros Hz. apply length_zero_iff_nil. rewrite length_cells. lia.
Qed.

(** When [expandGrid] returns, it returns the boxes of the occupied cells. *)
Lemma expandGrid_Some (floor : Floor N) boxes :
  expandGrid floor = Some boxes ->
  boxes = (λ rc, cell_box floor rc.1 rc.2)
            <$> filter (occupied floor) (cells (rows floor) (cols floor)).
Proof.
  intros Hexp.
  destruct (decide (rows floor <= length (grid floor))%nat) as [Hle|Hgt].
  - rewrite expandGrid_inside in Hexp by auto. by injection Hexp.
  - destruct (decide (cols floor = 0%nat)) as [Hc|Hc].
    + rewrite expandGrid_inside in Hexp by auto. by injection Hexp.
    + rewrite expandGrid_throws in Hexp by lia. done.
Qed.

Lemma String_of_Z_inj z1 z2 : String_of_Z z1 = String_of_Z z2 -> z1 = z2.
Proof.
  unfold String_of_Z. intros E.
  assert (E' : Some (Z.to_int z1) = Some (Z.to_int z2)).
  { rewrite <- !NilEmpty.isi. by rewrite E. }
  injection E' as E'. rewrite <- (DecimalZ.of_to z1), <- (DecimalZ.of_to z2).
  by rewrite E'.
Qed.

Lemma String_of_nat_inj n1 n2 : String_of_nat n1 = String_of_nat n2 -> n1 = n2.
Proof. unfold String_of_nat. intros E%String_of_Z_inj. lia. Qed.

(** The column numbers 1 .. 9 print as one character. *)
Lemma String_of_nat_digit c :
  (c < 9)%nat -> exists a, String_of_nat (c + 1) = String a "".
Proof.
  intros Hc. do 9 (destruct c as [|c]; [eexists; reflexivity |]). lia.
Qed.

Lemma append_char_inj (s1 s2 : string) (a b : ascii) :
  s1 +:+ String a "" = s2 +:+ String b "" -> s1 = s2 /\ a = b.
Proof.
  revert s2. induction s1 as [|x s1 IH]; intros [|y s2] E; simpl in E.
  - by injection E.
  - injection E as -> E. by destruct s2.
  - injection E as -> E. by destruct s1.
  - injection E as -> E. destruct (IH _ E) as [-> ->]. done.
Qed.

Lemma fmap_eq_elements {A B : Type} (f : A -> B) (l : list A) x y :
  NoDup (f <$> l) -> x ∈ l -> y ∈ l -> f x = f y -> x = y.
Proof.
  induction l as [|z l IH]; intros Hnd Hx Hy E; [by apply elem_of_nil in Hx |].
  rewrite fmap_cons in Hnd. apply NoDup_cons in Hnd as [Hz Hnd].
  apply elem_of_cons in Hx as [->|Hx]; apply elem_of_cons in Hy as [->|Hy];
    try done.
  - exfalso. apply Hz. rewrite E. by apply list_elem_of_fmap_2.
  - exfalso. apply Hz. rewrite <- E. by apply list_elem_of_fmap_2.
  - by apply IH.
Qed.

End GridMore.

(** X1: [expandGrid] throws exactly when the loops reach a row index that
    [floor.grid] lacks, i.e. when the grid array has fewer than [rows] rows
    and [cols] is positive; with no rows or no columns it returns the empty
    list; and it never returns more than rows * cols boxes. *)
Theorem expandGrid_defined {N : Type} `{JsNumber N} (floor : Floor N) :
  (expandGrid floor = None
   <-> (length (grid floor) < rows floor)%nat /\ (0 < cols floor)%nat)
  /\ (rows floor = 0%nat \/ cols floor = 0%nat -> expandGrid floor = Some [])
  /\ (forall boxes, expandGrid floor = Some boxes ->
        (length boxes <= rows floor * cols floor)%nat).
Proof.
  split; [| split].
  - split.
    + intros Hnone.
      destruct (decide (rows floor <= length (grid floor))%nat) as [Hle|Hgt].
      { rewrite expandGrid_inside in Hnone by auto. done. }
      destruct (decide (cols floor = 0%nat)) as [Hc|Hc].
      { rewrite expandGrid_inside in Hnone by auto. done. }
      lia.
    + intros [Hr Hc]. by apply expandGrid_throws.
  - intros Hz. rewrite expandGrid_inside by lia. by rewrite cells_empty.
  - intros boxes ->%expandGrid_Some.
    rewrite length_fmap, <- length_cells. apply length_filter.
Qed.

Lemma expandGrid_defined_witness :
  expandGrid (mkFloor 0 5 [] None 10 10 0 (mkBoxTemplate 8 1 8 None) : Floor Q)%Q
    = Some []
  /\ (length [cell_box Sample.floorQ 0 0; cell_box Sample.floorQ 1 1] <= 2 * 2)%nat.
Proof.
  split.
  - destruct (expandGrid_defined
                (mkFloor 0 5 [] None 10 10 0 (mkBoxTemplate 8 1 8 None) : Floor Q)%Q)
      as (_ & Hempty & _).
    apply Hempty. left. reflexivity.
  - destruct (expandGrid_defined Sample.floorQ) as (_ & _ & Hbound).
    apply (Hbound [cell_box Sample.floorQ 0 0; cell_box Sample.floorQ 1 1]).
    reflexivity.
Defined.

(** X2: with at most nine columns, and with row labels that print
    differently for different rows (as the numeric fallback does when
    [rowLabels] is absent), [expandGrid] gives every box its own id. *)
Theorem expandGrid_ids_distinct {N : Type} `{JsNumber N}
    (floor : Floor N) (boxes : list (Box N)) :
  (cols floor <= 9)%nat ->
  rowLabels floor = None
  \/ (forall r1 r2, (r1 < rows floor)%nat -> (r2 < rows floor)%nat ->
        ToString (rowLabel floor r1) = ToString (rowLabel floor r2) -> r1 = r2) ->
  expandGrid floor = Some boxes ->
  NoDup (box_id <$> boxes).
Proof.
  intros Hcols Hlabels ->%expandGrid_Some.
  assert (Hinj : forall r1 r2, (r1 < rows floor)%nat -> (r2 < rows floor)%nat ->
            ToString (rowLabel floor r1) = ToString (rowLabel floor r2) -> r1 = r2).
  { destruct Hlabels as [Hnone|Hinj]; [| exact Hinj].
    intros r1 r2 _ _. unfold rowLabel, rowLabels_at. rewrite Hnone. simpl.
    apply String_of_nat_inj. }
  rewrite <- list_fmap_compose. apply NoDup_fmap_2_strong.
  - intros [r1 c1] [r2 c2] [_ H1]%list_elem_of_filter [_ H2]%list_elem_of_filter E.
    apply elem_of_cells in H1 as [Hr1 Hc1], H2 as [Hr2 Hc2].
    cbn [compose cell_box box_id fst snd] in E. unfold cell_id in E.
    destruct (String_of_nat_digit c1) as [a1 Ea1]; [lia |].
    destruct (String_of_nat_digit c2) as [a2 Ea2]; [lia |].
    rewrite Ea1, Ea2 in E. apply append_char_inj in E as [El Ea].
    assert (r1 = r2) by (by apply Hinj). subst.
    assert (c1 + 1 = c2 + 1)%nat
      by (apply String_of_nat_inj; by rewrite Ea1, Ea2).
    f_equal; lia.
  - apply NoDup_filter, NoDup_cells.
Qed.

Lemma expandGrid_ids_distinct_witness :
  NoDup (box_id <$> [cell_box Sample.floorQ 0 0; cell_box Sample.floorQ 1 1]).
Proof.
  apply (expandGrid_ids_distinct Sample.floorQ).
  - simpl. lia.
  - right. intros [|[|r1]] [|[|r2]] Hr1 Hr2; simpl in Hr1, Hr2; try lia;
      try done; vm_compute; discriminate.
  - reflexivity.
Defined.

(** X3: ids do collide in a larger grid.  When rows 1 and 11 both fall back
    to the numeric label and the cells (1, 10) and (11, 0) are occupied,
    both boxes are in the result under the id "111", so the ids are not
    distinct. *)
Theorem expandGrid_ids_collide {N : Type} `{JsNumber N}
    (floor : Floor N) (boxes : list (Box N)) :
  truthy (rowLabels_at floor 1) = false ->
  truthy (rowLabels_at floor 11) = false ->
  (11 < rows floor)%nat -> (10 < cols floor)%nat ->
  occupied floor (1, 10)%nat -> occupied floor (11, 0)%nat ->
  expandGrid floor = Some boxes ->
  cell_box floor 1 10 ∈ boxes /\ cell_box floor 11 0 ∈ boxes
  /\ box_id (cell_box floor 1 10) = "111"
  /\ box_id (cell_box floor 11 0) = "111"
  /\ ~ NoDup (box_id <$> boxes).
Proof.
  intros Hf1 Hf11 Hrows Hcols Ho1 Ho11 ->%expandGrid_Some.
  set (l := filter (occupied floor) (cells (rows floor) (cols floor))).
  assert (H1 : (1, 10)%nat ∈ l)
    by (apply list_elem_of_filter; split; [done | apply elem_of_cells; lia]).
  assert (H11 : (11, 0)%nat ∈ l)
    by (apply list_elem_of_filter; split; [done | apply elem_of_cells; lia]).
  assert (Eid1 : box_id (cell_box floor 1 10) = "111").
  { cbn [cell_box box_id]. unfold cell_id, rowLabel, js_or. by rewrite Hf1. }
  assert (Eid11 : box_id (cell_box floor 11 0) = "111").
  { cbn [cell_box box_id]. unfold cell_id, rowLabel, js_or. by rewrite Hf11. }
  split; [by apply (list_elem_of_fmap_2' _ _ (1, 10)%nat) |].
  split; [by apply (list_elem_of_fmap_2' _ _ (11, 0)%nat) |].
  split; [exact Eid1 | split; [exact Eid11 |]].
  rewrite <- list_fmap_compose. intros Hnd.
  assert (E : (1, 10)%nat = (11, 0)%nat).
  { apply (fmap_eq_elements _ l _ _ Hnd H1 H11).
    exact (eq_trans Eid1 (eq_sym Eid11)). }
  discriminate.
Qed.

Lemma expandGrid_ids_collide_witness :
  box_id (cell_box Demo.hallQ 1 10) = box_id (cell_box Demo.hallQ 11 0).
Proof.
  destruct (expandGrid_ids_collide Demo.hallQ
              ((λ rc, cell_box Demo.hallQ rc.1 rc.2) <$> cells 12 11))
    as (_ & _ & E1 & E11 & _).
  - reflexivity.
  - reflexivity.
  - simpl. lia.
  - simpl. lia.
  - reflexivity.
  - reflexivity.
  - vm_compute. reflexivity.
  - by rewrite E1, E11.
Defined.

(** ** Positions of the grid boxes, in exact arithmetic *)

Lemma cell_position_inj (w : Q) (n1 n2 : nat) :
  ~ (w == 0)%Q ->
  (num_add (num_mul (num_of_nat n1) w) (num_div w (num_of_Z 2))
   == num_add (num_mul (num_of_nat n2) w) (num_div w (num_of_Z 2)))%Q ->
  n1 = n2.
Proof.
  intros Hw E. unfold num_of_nat in E.
  cbn [num_add num_mul num_div num_of_Z Exact.number] in E.
  change (inject_Z 2) with 2%Q in E.
  remember (inject_Z (Z.of_nat n1)) as a eqn:Ea.
  remember (inject_Z (Z.of_nat n2)) as b eqn:Eb.
  assert (E' : ((a - b) * w == 0)%Q).
  { transitivity ((a * w + w / 2) - (b * w + w / 2))%Q; [field |].
    rewrite E. ring. }
  apply Qmult_integral in E' as [E'|E']; [| done].
  assert (E'' : (a == b)%Q) by (clear - E'; lra).
  subst a b. unfold Qeq in E''. simpl in E''. lia.
Qed.

(** X4: in exact arithmetic, with nonzero cell width and depth, no two
    boxes of a grid have the same (x, z) position, and boxes in neighbouring
    columns (rows) are exactly one cell width (depth) apart. *)
Theorem expandGrid_positions_distinct (floor : Floor Q) (boxes : list (Box Q))
    (i j : nat) (b1 b2 : Box Q) :
  ~ (cellWidth floor == 0)%Q -> ~ (cellDepth floor == 0)%Q ->
  expandGrid floor = Some boxes ->
  boxes !! i = Some b1 -> boxes !! j = Some b2 ->
  (box_x b1 == box_x b2)%Q -> (box_z b1 == box_z b2)%Q ->
  i = j
  /\ (forall r c, (box_x (cell_box floor r (S c)) - box_x (cell_box floor r c)
                  == cellWidth floor)%Q)
  /\ (forall r c, (box_z (cell_box floor (S r) c) - box_z (cell_box floor r c)
                  == cellDepth floor)%Q).
Proof.
  intros Hw Hd ->%expandGrid_Some Hi Hj Ex Ez. split; [| split].
  - rewrite list_lookup_fmap in Hi, Hj.
    destruct (filter _ _ !! i) as [[r1 c1]|] eqn:Li; [| done].
    destruct (filter _ _ !! j) as [[r2 c2]|] eqn:Lj; [| done].
    injection Hi as <-. injection Hj as <-. cbn [cell_box box_x box_z fst snd] in Ex, Ez.
    apply cell_position_inj in Ex, Ez; try done. subst.
    eapply NoDup_lookup; [| exact Li | exact Lj].
    apply NoDup_filter, NoDup_cells.
  - intros r c. cbn [cell_box box_x]. unfold num_of_nat.
    cbn [num_add num_mul num_div num_of_Z Exact.number].
    rewrite Nat2Z.inj_succ, <- Z.add_1_r, inject_Z_plus. simpl inject_Z. field.
  - intros r c. cbn [cell_box box_z]. unfold num_of_nat.
    cbn [num_add num_mul num_div num_of_Z Exact.number].
    rewrite Nat2Z.inj_succ, <- Z.add_1_r, inject_Z_plus. simpl inject_Z. field.
Qed.

Lemma expandGrid_positions_distinct_witness :
  (box_x (cell_box Sample.floorQ 0 1) - box_x (cell_box Sample.floorQ 0 0) == 10)%Q.
Proof.
  destruct (expandGrid_positions_distinct Sample.floorQ
              [cell_box Sample.floorQ 0 0; cell_box Sample.floorQ 1 1] 0 0
              (cell_box Sample.floorQ 0 0) (cell_box Sample.floorQ 0 0))
    as (_ & Hpitch & _).
  - discriminate.
  - discriminate.
  - reflexivity.
  - reflexivity.
  - reflexivity.
  - reflexivity.
  - reflexivity.
  - exact (Hpitch 0 0)%nat.
Defined.

(** ** The item list, the selector and the buttons *)

Section AppMore.

Context {N : Type} `{JsNumber N}.
Variable parseFloat : string -> option N.

Lemma expandItems_cons (item : Item N) (model : list (Item N)) :
  expandItems (item :: model)
    = match expandItem item, expandItems model with
      | Some a, Some b => Some (a ++ b)
      | _, _ => None
      end.
Proof.
  unfold expandItems. cbn [mapM]. destruct (expandItem item) as [a|]; [| done].
  simpl. by destruct (mapM expandItem model).
Qed.

Lemma expandItems_app (model1 model2 : list (Item N)) :
  expandItems (model1 ++ model2)
    = match expandItems model1, expandItems model2 with
      | Some a, Some b => Some (a ++ b)
      | _, _ => None
      end.
Proof.
  induction model1 as [|item model1 IH].
  - simpl. change (expandItems []) with (Some ([] : list (Item N))).
    by destruct (expandItems model2).
  - rewrite <- app_comm_cons, !expandItems_cons, IH.
    destruct (expandItem item) as [a|]; [| done].
    destruct (expandItems model1) as [b|]; [| done].
    destruct (expandItems model2) as [c|]; [| done].
    by rewrite app_assoc.
Qed.

Lemma expandItems_None (model : list (Item N)) :
  expandItems model = None
  <-> exists floor, IGrid floor ∈ model /\ expandGrid floor = None.
Proof.
  induction model as [|item model IH].
  - split; [done |]. intros (floor & Hin & _). by apply elem_of_nil in Hin.
  - rewrite expandItems_cons. split.
    + destruct (expandItem item) as [a|] eqn:Ea.
      * destruct (expandItems model) as [b|]; [done |]. intros _.
        destruct (proj1 IH eq_refl) as (floor & Hin & Hf).
        exists floor. split; [by right | done].
      * intros _. destruct item as [floor| | | |]; try done.
        exists floor. split; [by left |]. simpl in Ea.
        by destruct (expandGrid floor).
    + intros (floor & Hin & Hf). apply elem_of_cons in Hin as [Heq|Hin].
      * subst item. simpl. by rewrite Hf.
      * destruct (expandItem item); [| done].
        rewrite (proj2 IH); [done |]. eauto.
Qed.

Lemma expandItems_no_grid (model : list (Item N)) :
  Forall (λ item, forall floor, item <> IGrid floor) model ->
  expandItems model = Some model.
Proof.
  induction 1 as [|item model Hitem _ IH]; [done |].
  rewrite expandItems_cons, IH.
  destruct item as [floor| | | |]; try done. by destruct (Hitem floor).
Qed.

Lemma expandItems_result (model items : list (Item N)) :
  expandItems model = Some items ->
  Forall (λ item, forall floor, item <> IGrid floor) items.
Proof.
  revert items. induction model as [|item model IH]; intros items.
  - intros [= <-]. constructor.
  - rewrite expandItems_cons.
    destruct (expandItem item) as [a|] eqn:Ea; [| done].
    destruct (expandItems model) as [b|]; [| done].
    intros [= <-]. apply Forall_app. split; [| by apply IH].
    destruct item as [floor| | | |]; simpl in Ea.
    + destruct (expandGrid floor) as [boxes|]; [| done]. injection Ea as <-.
      apply Forall_fmap, Forall_forall. by intros box _ floor'.
    + injection Ea as <-. by repeat constructor.
    + injection Ea as <-. by repeat constructor.
    + injection Ea as <-. by repeat constructor.
    + injection Ea as <-. by repeat constructor.
Qed.

(** No callback changes which shapes there are. *)
Lemma useFrame_all_ids delta (l : list (string * Mesh N)) (t : Tick N) :
  (useFrame_all delta l t).1.*1 = l.*1.
Proof.
  revert t. induction l as [|[id mesh] l IH]; intros t; [done |].
  cbn [useFrame_all]. destruct (Shape_useFrame delta id mesh t) as [mesh' t1].
  specialize (IH t1). destruct (useFrame_all delta l t1) as [l' t2].
  cbn [fst] in *. rewrite !fmap_cons. cbn [fst]. by f_equal.
Qed.

Lemma handle_ids (st : AppState N) (e : Event N) :
  (shapes (handle parseFloat st e)).*1 = (shapes st).*1.
Proof.
  destruct e; simpl; try done.
  - unfold handleMove. destruct (selected st); [| done].
    destruct (parseFloat (distance st)) as [dist|]; [| done].
    destruct (num_isNaN dist || num_is_zero dist); [done |].
    by destruct (live (moving st) _ || live (rotating st) _).
  - unfold handleRotate. destruct (selected st); [| done].
    by destruct (live (rotating st) _ || live (moving st) _).
  - unfold clickToggle. by destruct (selected st).
  - unfold clickToggle. by destruct (selected st).
  - by rewrite handleZoomToBox_label.
  - rewrite frame_unfold.
    pose proof (useFrame_all_ids delta (shapes st)
                  (mkTick (moving st) (rotating st) [])) as Hids.
    by destruct (useFrame_all delta (shapes st) _).
Qed.

Lemma run_ids (evs : list (Event N)) (st : AppState N) :
  (shapes (run parseFloat evs st)).*1 = (shapes st).*1.
Proof.
  revert st. induction evs as [|e evs IH]; intros st; [done |].
  change (run parseFloat (e :: evs) st)
    with (run parseFloat evs (handle parseFloat st e)).
  by rewrite IH, handle_ids.
Qed.

(** [flags[id]] after [toggle]. *)
Lemma flag_toggle (flags : gmap string bool) (id k : string) :
  flag (toggle id flags) k = if decide (k = id) then negb (flag flags id) else flag flags k.
Proof.
  unfold flag at 1, toggle. rewrite lookup_insert.
  destruct (decide (id = k)) as [->|Hne].
  - by rewrite decide_True.
  - rewrite decide_False by done. reflexivity.
Qed.

Lemma selected_Some (st : AppState N) id :
  selected st = Some id -> selectedBoxId st = Some id /\ id <> "".
Proof.
  unfold selected. destruct (selectedBoxId st) as [k|]; [| done].
  destruct (String.eqb_spec k ""); [done |]. by intros [= ->].
Qed.

End AppMore.

(** X5: the initialiser of [items] works item by item: the expansion of a
    concatenated model is the concatenation of the expansions; it throws
    exactly when the model holds a grid on which [expandGrid] throws; a model
    without grids is returned as it is; and the result never holds a grid,
    so expanding it again changes nothing. *)
Theorem expandItems_spec {N : Type} `{JsNumber N} (model1 model2 : list (Item N)) :
  expandItems (model1 ++ model2)
    = match expandItems model1, expandItems model2 with
      | Some a, Some b => Some (a ++ b)
      | _, _ => None
      end
  /\ (expandItems model1 = None
      <-> exists floor, IGrid floor ∈ model1 /\ expandGrid floor = None)
  /\ (Forall (λ item, forall floor, item <> IGrid floor) model1 ->
      expandItems model1 = Some model1)
  /\ (forall items, expandItems model1 = Some items ->
        Forall (λ item, forall floor, item <> IGrid floor) items
        /\ expandItems items = Some items).
Proof.
  split; [apply expandItems_app | split; [apply expandItems_None | split]].
  - apply expandItems_no_grid.
  - intros items Hexp. pose proof (expandItems_result _ _ Hexp) as Hng.
    split; [exact Hng | by apply expandItems_no_grid].
Qed.

Lemma expandItems_spec_witness :
  selector_options
    [IBox Sample.palletQ; IBox (cell_box Sample.floorQ 0 0);
     IBox (cell_box Sample.floorQ 1 1);
     ILines "aisle" [[(0, 0, 0); (20, 0, 0)]]%Q (Some "white")]
  = ["A1"; "01"; "B2"]
  /\ expandItems [IBox Sample.palletQ] = Some [IBox Sample.palletQ].
Proof.
  destruct (expandItems_spec Demo.modelQ []) as (_ & _ & _ & Hres).
  destruct (Hres [IBox Sample.palletQ; IBox (cell_box Sample.floorQ 0 0);
                  IBox (cell_box Sample.floorQ 1 1);
                  ILines "aisle" [[(0, 0, 0); (20, 0, 0)]]%Q (Some "white")])
    as [_ Hagain]; [reflexivity |].
  destruct (expandItems_spec [IBox Sample.palletQ] []) as (_ & _ & Hsame & _).
  split; [reflexivity |]. apply Hsame. by repeat constructor.
Defined.

(** X6: the boxes on screen are fixed once and for all: after any sequence
    of events the ids of the shapes, in order, are the options of the pallet
    selector; no event but a frame changes a mesh or calls [resolve]; and no
    event but a frame, Move or Rotate changes the two animation maps. *)
Theorem shapes_are_fixed {N : Type} `{JsNumber N}
    (parseFloat : string -> option N) (items : list (Item N))
    (evs : list (Event N)) (e : Event N) :
  let st := run parseFloat evs (initial (boxes_of items)) in
  (shapes st).*1 = selector_options items
  /\ ((forall delta, e <> Frame delta) ->
      shapes (handle parseFloat st e) = shapes st
      /\ calls (handle parseFloat st e) = calls st)
  /\ ((forall delta, e <> Frame delta) -> e <> ClickMove -> e <> ClickRotate ->
      moving (handle parseFloat st e) = moving st
      /\ rotating (handle parseFloat st e) = rotating st).
Proof.
  intros st. split; [| split].
  - unfold st. rewrite run_ids. unfold initial, selector_options. simpl.
    by rewrite <- list_fmap_compose.
  - intros Hnf. destruct e; simpl; try done.
    + unfold handleMove. destruct (selected st); [| done].
      destruct (parseFloat (distance st)) as [dist|]; [| done].
      destruct (num_isNaN dist || num_is_zero dist); [done |].
      by destruct (live (moving st) _ || live (rotating st) _).
    + unfold handleRotate. destruct (selected st); [| done].
      by destruct (live (rotating st) _ || live (moving st) _).
    + unfold clickToggle. by destruct (selected st).
    + unfold clickToggle. by destruct (selected st).
    + by rewrite handleZoomToBox_label.
    + by destruct (Hnf delta).
  - intros Hnf Hnm Hnr. destruct e; simpl; try done.
    + unfold clickToggle. by destruct (selected st).
    + unfold clickToggle. by destruct (selected st).
    + by rewrite handleZoomToBox_label.
    + by destruct (Hnf delta).
Qed.

Lemma shapes_are_fixed_witness :
  shapes (handle parseFloat_decimal
            (run parseFloat_decimal [Select "A1"; ClickRotate]
               (initial [Sample.palletQ])) (Select "B2"))
  = [("A1", mkMesh 5 0 5 0)]%Q.
Proof.
  destruct (shapes_are_fixed parseFloat_decimal [IBox Sample.palletQ]
              [Select "A1"; ClickRotate] (Select "B2")) as (_ & Hsame & _).
  destruct Hsame as [Hshapes _]; [done |].
  exact (eq_trans Hshapes eq_refl).
Defined.

(** ** Toggles, warnings and the label *)

(** X7: with a box selected, the car button flips the car flag of that box
    and of no other, and touches nothing else in the state; its caption
    changes between "Add Car" and "Remove Car"; a second click gives every
    box its former flag back.  The same holds for the error button.  Neither
    looks at the animation maps, so both work while the box moves. *)
Theorem toggle_buttons {N : Type} `{JsNumber N}
    (parseFloat : string -> option N) (st : AppState N) (id : string) :
  selected st = Some id ->
  let car := handle parseFloat st ClickToggleCar in
  let err := handle parseFloat st ClickToggleError in
  (flag (carsOnBoxes car) id = negb (flag (carsOnBoxes st) id)
   /\ (forall k, k <> id -> carsOnBoxes car !! k = carsOnBoxes st !! k)
   /\ car = mkApp (selectedBoxId st) (axis_sel st) (distance st) (moving st)
              (rotating st) (carsOnBoxes car) (errorBoxes st) (labelBoxId st)
              (shapes st) (alerts st) (calls st)
   /\ car_button car <> car_button st
   /\ (forall k, flag (carsOnBoxes (handle parseFloat car ClickToggleCar)) k
                 = flag (carsOnBoxes st) k))
  /\ (flag (errorBoxes err) id = negb (flag (errorBoxes st) id)
      /\ (forall k, k <> id -> errorBoxes err !! k = errorBoxes st !! k)
      /\ err = mkApp (selectedBoxId st) (axis_sel st) (distance st) (moving st)
                 (rotating st) (carsOnBoxes st) (errorBoxes err) (labelBoxId st)
                 (shapes st) (alerts st) (calls st)
      /\ error_button err <> error_button st
      /\ (forall k, flag (errorBoxes (handle parseFloat err ClickToggleError)) k
                    = flag (errorBoxes st) k)).
Proof.
  intros Hsel car err. destruct (selected_Some st id Hsel) as [Hid _].
  assert (Ecar : car = toggleCar id st)
    by (unfold car; simpl; unfold clickToggle; by rewrite Hsel).
  assert (Eerr : err = toggleError id st)
    by (unfold err; simpl; unfold clickToggle; by rewrite Hsel).
  assert (Hsel_car : selected (toggleCar id st) = Some id) by exact Hsel.
  assert (Hsel_err : selected (toggleError id st) = Some id) by exact Hsel.
  split.
  - rewrite Ecar. split; [| split; [| split; [| split]]].
    + cbn [toggleCar carsOnBoxes]. rewrite flag_toggle. by rewrite decide_True.
    + intros k Hk. cbn [toggleCar carsOnBoxes]. unfold toggle.
      by rewrite lookup_insert_ne.
    + reflexivity.
    + unfold car_button, selected_key. cbn [toggleCar carsOnBoxes selectedBoxId].
      rewrite Hid. cbn [default]. rewrite flag_toggle, decide_True by done.
      change (Datatypes.id id) with id.
      by destruct (flag (carsOnBoxes st) id).
    + intros k. simpl. unfold clickToggle. rewrite Hsel_car.
      cbn [toggleCar carsOnBoxes]. rewrite !flag_toggle.
      destruct (decide (k = id)) as [->|Hk]; [| done].
      rewrite decide_True by done. apply negb_involutive.
  - rewrite Eerr. split; [| split; [| split; [| split]]].
    + cbn [toggleError errorBoxes]. rewrite flag_toggle. by rewrite decide_True.
    + intros k Hk. cbn [toggleError errorBoxes]. unfold toggle.
      by rewrite lookup_insert_ne.
    + reflexivity.
    + unfold error_button, selected_key. cbn [toggleError errorBoxes selectedBoxId].
      rewrite Hid. cbn [default]. rewrite flag_toggle, decide_True by done.
      change (Datatypes.id id) with id.
      by destruct (flag (errorBoxes st) id).
    + intros k. simpl. unfold clickToggle. rewrite Hsel_err.
      cbn [toggleError errorBoxes]. rewrite !flag_toggle.
      destruct (decide (k = id)) as [->|Hk]; [| done].
      rewrite decide_True by done. apply negb_involutive.
Qed.

Lemma toggle_buttons_witness :
  flag (carsOnBoxes (handle parseFloat_decimal
                       (handle parseFloat_decimal Sample.readyQ ClickMove)
                       ClickToggleCar)) "A1" = true.
Proof.
  destruct (toggle_buttons parseFloat_decimal
              (handle parseFloat_decimal Sample.readyQ ClickMove) "A1")
    as ((Hflip & _) & _); [reflexivity |].
  exact Hflip.
Defined.

(** X8: [alert] is called in one situation only: one of the four buttons
    is clicked while nothing is selected ([null] or the empty string); the
    click then does nothing else.  In every other case the list of alerts
    stays as it is, so every alert ever shown is "No pallet selected!". *)
Theorem alerts_only_without_selection {N : Type} `{JsNumber N}
    (parseFloat : string -> option N) (st : AppState N) (e : Event N)
    (items : list (Box N)) (evs : list (Event N)) :
  (selected st = None ->
   e ∈ [ClickMove; ClickRotate; ClickToggleCar; ClickToggleError] ->
   handle parseFloat st e
     = mkApp (selectedBoxId st) (axis_sel st) (distance st) (moving st)
         (rotating st) (carsOnBoxes st) (errorBoxes st) (labelBoxId st)
         (shapes st) (alerts st ++ ["No pallet selected!"]) (calls st))
  /\ (is_Some (selected st)
      \/ e ∉ [ClickMove; ClickRotate; ClickToggleCar; ClickToggleError] ->
      alerts (handle parseFloat st e) = alerts st)
  /\ Forall (λ msg, msg = "No pallet selected!")
       (alerts (run parseFloat evs (initial items))).
Proof.
  assert (Hstep : forall (s : AppState N) (ev : Event N),
            alerts (handle parseFloat s ev) = alerts s
            \/ alerts (handle parseFloat s ev) = alerts s ++ ["No pallet selected!"]).
  { intros s ev. destruct ev; simpl; auto.
    - unfold handleMove. destruct (selected s); [| auto].
      destruct (parseFloat (distance s)) as [dist|]; [| auto].
      destruct (num_isNaN dist || num_is_zero dist); [auto |].
      destruct (live (moving s) _ || live (rotating s) _); auto.
    - unfold handleRotate. destruct (selected s); [| auto].
      destruct (live (rotating s) _ || live (moving s) _); auto.
    - unfold clickToggle. destruct (selected s); auto.
    - unfold clickToggle. destruct (selected s); auto.
    - left. by rewrite handleZoomToBox_label.
    - left. rewrite frame_unfold. by destruct (useFrame_all delta (shapes s) _). }
  split; [| split].
  - intros Hsel He.
    repeat (apply elem_of_cons in He as [->|He]);
      [| | | | by apply elem_of_nil in He]; simpl;
      unfold handleMove, handleRotate, clickToggle; by rewrite Hsel.
  - intros [[id Hsel]|He].
    + destruct e; simpl; try done.
      * unfold handleMove. rewrite Hsel.
        destruct (parseFloat (distance st)) as [dist|]; [| done].
        destruct (num_isNaN dist || num_is_zero dist); [done |].
        by destruct (live (moving st) _ || live (rotating st) _).
      * unfold handleRotate. rewrite Hsel.
        by destruct (live (rotating st) _ || live (moving st) _).
      * unfold clickToggle. by rewrite Hsel.
      * unfold clickToggle. by rewrite Hsel.
      * by rewrite handleZoomToBox_label.
      * rewrite frame_unfold. by destruct (useFrame_all delta (shapes st) _).
    + destruct e; simpl; try done.
      * exfalso. apply He. by left.
      * exfalso. apply He. right. by left.
      * exfalso. apply He. do 2 right. by left.
      * exfalso. apply He. do 3 right. by left.
      * by rewrite handleZoomToBox_label.
      * rewrite frame_unfold. by destruct (useFrame_all delta (shapes st) _).
  - assert (Hrun : forall l (s : AppState N),
              Forall (λ msg, msg = "No pallet selected!") (alerts s) ->
              Forall (λ msg, msg = "No pallet selected!")
                (alerts (run parseFloat l s))).
    { intros l. induction l as [|ev l IH]; intros s Hs; [exact Hs |].
      apply (IH (handle parseFloat s ev)).
      destruct (Hstep s ev) as [-> | ->]; [exact Hs |].
      apply Forall_app. split; [exact Hs | by constructor]. }
    apply Hrun. constructor.
Qed.

Lemma alerts_only_without_selection_witness :
  alerts (handle parseFloat_decimal (initial [Sample.palletQ]) ClickToggleError)
    = ["No pallet selected!"]
  /\ alerts (handle parseFloat_decimal Sample.readyQ ClickToggleError) = [].
Proof.
  destruct (alerts_only_without_selection parseFloat_decimal
              (initial [Sample.palletQ]) ClickToggleError [] [])
    as (Hwarn & _ & _).
  destruct (alerts_only_without_selection parseFloat_decimal
              Sample.readyQ ClickToggleError [] [])
    as (_ & Hquiet & _).
  split.
  - rewrite Hwarn; [reflexivity | reflexivity |]. do 3 right. by left.
  - rewrite Hquiet; [reflexivity |]. left. by eexists.
Defined.

(** ** The floating label, repeated requests and idle frames *)

Section LabelFacts.

Context {N : Type} `{JsNumber N}.
Variable parseFloat : string -> option N.

Lemma Shape_label_shown (box : Box N) (labelBoxId : option string)
    (carsOnBoxes : gmap string bool) :
  is_Some (Shape_label box labelBoxId carsOnBoxes) <-> labelBoxId = Some (box_id box).
Proof.
  unfold Shape_label. destruct (decide (labelBoxId = Some (box_id box))).
  - split; [done | by eexists].
  - split; [by intros [? ?] | done].
Qed.

Lemma labels_at_most_one (boxes : list (Box N)) (labelBoxId : option string)
    (carsOnBoxes : gmap string bool) :
  NoDup (box_id <$> boxes) ->
  (length (filter (λ box, is_Some (Shape_label box labelBoxId carsOnBoxes)) boxes)
   <= 1)%nat.
Proof.
  induction boxes as [|box boxes IH]; intros Hnd; [simpl; lia |].
  rewrite fmap_cons in Hnd. apply NoDup_cons in Hnd as [Hbox Hnd].
  rewrite filter_cons. destruct (decide (is_Some _)) as [Hs|Hs]; [| by apply IH].
  apply Shape_label_shown in Hs.
  assert (Hrest : filter (λ box, is_Some (Shape_label box labelBoxId carsOnBoxes)) boxes
                  = []).
  { apply elem_of_nil_inv. intros b [Hb Hin]%list_elem_of_filter.
    apply Shape_label_shown in Hb. apply Hbox.
    assert (box_id box = box_id b) as -> by congruence.
    by apply list_elem_of_fmap_2. }
  rewrite Hrest. simpl. lia.
Qed.

(** An idle scene: with both maps empty the callbacks do nothing. *)
Lemma useFrame_all_idle delta (l : list (string * Mesh N)) (cs : list (Kind * string)) :
  useFrame_all delta l (mkTick ∅ ∅ cs) = (l, mkTick ∅ ∅ cs).
Proof.
  induction l as [|[id mesh] l IH]; [done |].
  cbn [useFrame_all]. rewrite Shape_useFrame_eq.
  cbn [tick_moving tick_rotating tick_calls].
  rewrite !lookup_empty, !alter_empty. cbn [mesh_after fired].
  rewrite !app_nil_r, IH. reflexivity.
Qed.

(** The [Shape] of a box has a mesh exactly when the box is shown. *)
Lemma meshRef_of_shown (id : string) (st : AppState N) :
  is_Some (meshRef_of id st) <-> id ∈ (shapes st).*1.
Proof.
  unfold meshRef_of. rewrite fmap_is_Some. split.
  - intros [s Hs]. apply head_Some_elem_of, list_elem_of_filter in Hs as [<- Hin].
    by apply list_elem_of_fmap_2.
  - intros ([k mesh] & -> & Hin)%list_elem_of_fmap. cbn [fst].
    destruct (filter (λ s, s.1 = k) (shapes st)) as [|s l] eqn:E; [| by eexists].
    exfalso. apply (not_elem_of_nil (k, mesh)). rewrite <- E.
    by apply list_elem_of_filter.
Qed.

Lemma handleMove_twice (st : AppState N) :
  is_Some (selected st) ->
  handleMove parseFloat (handleMove parseFloat st) = handleMove parseFloat st
  /\ (handleMove parseFloat st <> st ->
      handleRotate (handleMove parseFloat st) = handleMove parseFloat st).
Proof.
  intros [id Hsel].
  destruct (parseFloat (distance st)) as [dist|] eqn:Hp;
    [| by unfold handleMove; rewrite Hsel, Hp; unfold handleMove; rewrite Hsel, Hp].
  destruct (num_isNaN dist || num_is_zero dist) eqn:Hbad;
    [by unfold handleMove; rewrite Hsel, Hp, Hbad; unfold handleMove;
        rewrite Hsel, Hp, Hbad |].
  destruct (live (moving st) id || live (rotating st) id) eqn:Hlive;
    [by unfold handleMove; rewrite Hsel, Hp, Hbad, Hlive; unfold handleMove;
        rewrite Hsel, Hp, Hbad, Hlive |].
  assert (E : handleMove parseFloat st
              = set_moving (<[id := mkAnimObj (Some (axis_sel st)) dist id]> (moving st)) st)
    by (unfold handleMove; by rewrite Hsel, Hp, Hbad, Hlive).
  rewrite E.
  assert (Hin : is_Some (moving (set_moving
                  (<[id := mkAnimObj (Some (axis_sel st)) dist id]> (moving st)) st) !! id))
    by (simpl; rewrite lookup_insert_eq; by eexists).
  split.
  - apply (handleMove_rejected parseFloat _ id); [exact Hsel | auto].
  - intros _. apply (handleRotate_rejected _ id); [exact Hsel | auto].
Qed.

Lemma handleRotate_twice (st : AppState N) :
  is_Some (selected st) ->
  handleRotate (handleRotate st) = handleRotate st
  /\ (handleRotate st <> st ->
      handleMove parseFloat (handleRotate st) = handleRotate st).
Proof.
  intros [id Hsel].
  destruct (live (rotating st) id || live (moving st) id) eqn:Hlive;
    [by unfold handleRotate; rewrite Hsel, Hlive; unfold handleRotate;
        rewrite Hsel, Hlive |].
  assert (E : handleRotate st
              = set_rotating (<[id := mkAnimObj None Math_PI id]> (rotating st)) st)
    by (unfold handleRotate; by rewrite Hsel, Hlive).
  rewrite E.
  assert (Hin : is_Some (rotating (set_rotating
                  (<[id := mkAnimObj None Math_PI id]> (rotating st)) st) !! id))
    by (simpl; rewrite lookup_insert_eq; by eexists).
  split.
  - apply (handleRotate_rejected _ id); [exact Hsel | auto].
  - intros _. apply (handleMove_rejected parseFloat _ id); [exact Hsel | auto].
Qed.

End LabelFacts.

(** X9: the label follows the double clicks.  [handleZoomToBox] does
    nothing when the controls are not mounted or the box has no mesh, and
    a box has a mesh exactly when it is shown.  Otherwise nothing but the
    label changes, and: if [controls.update()] reports a camera change, the
    listener clears the label before the toggle applies, so the label of the
    box is shown whatever was labelled before; if it reports none, the label
    of the box is toggled, that is shown, with the id and, when the box has a
    car, "Car Present", or hidden if it was showing.  A further double click
    on the same box that does not move the camera then toggles it back.  A
    camera change hides any label; no other event changes it.  With distinct
    box ids at most one box carries a label. *)
Theorem floating_label {N : Type} `{JsNumber N}
    (parseFloat : string -> option N) (st : AppState N) (box : Box N)
    (boxes : list (Box N)) (e : Event N) (controls change : bool) :
  let id := box_id box in
  let shown := handle parseFloat st (DoubleClick id controls change) in
  let label :=
    Some (id, if flag (carsOnBoxes st) id then Some "Car Present" else None) in
  (controls = false \/ meshRef_of id st = None -> shown = st)
  /\ (is_Some (meshRef_of id st) <-> id ∈ (shapes st).*1)
  /\ shown = set_label (labelBoxId shown) st
  /\ (controls = true -> is_Some (meshRef_of id st) ->
      Shape_label box (labelBoxId shown) (carsOnBoxes shown)
        = (if change then label
           else if decide (labelBoxId st = Some id) then None else label)
      /\ labelBoxId (handle parseFloat shown (DoubleClick id true false))
         = (if change then None
            else if decide (labelBoxId st = Some id) then Some id else None))
  /\ labelBoxId (handle parseFloat shown CameraChange) = None
  /\ ((forall k c ch, e <> DoubleClick k c ch) -> e <> CameraChange ->
      labelBoxId (handle parseFloat st e) = labelBoxId st)
  /\ (NoDup (box_id <$> boxes) ->
      (length (filter (λ b, is_Some (Shape_label b (labelBoxId st) (carsOnBoxes st)))
                 boxes) <= 1)%nat).
Proof.
  intros id shown label.
  split; [| split; [| split; [| split; [| split; [| split]]]]].
  - unfold shown. simpl. unfold handleZoomToBox.
    intros [-> | ->]; [done | by destruct controls].
  - apply meshRef_of_shown.
  - apply handleZoomToBox_label.
  - intros -> [mesh Hmesh].
    assert (Hshown : labelBoxId shown
                     = if change then Some id
                       else if decide (labelBoxId st = Some id) then None else Some id).
    { unfold shown. simpl. rewrite Hmesh. unfold handleZoomToBox.
      destruct change; simpl; [by rewrite ?decide_False | done]. }
    assert (Eshown : shown = handleZoomToBox true change (meshRef_of id st) id st)
      by reflexivity.
    assert (Hmesh' : meshRef_of id shown = Some mesh)
      by (by rewrite Eshown, handleZoomToBox_label).
    assert (Hcars : carsOnBoxes shown = carsOnBoxes st)
      by (by rewrite Eshown, handleZoomToBox_label).
    split.
    + rewrite Hshown, Hcars. unfold Shape_label, label. fold id.
      destruct change; [by rewrite decide_True |].
      destruct (decide (labelBoxId st = Some id)) as [E|E].
      * by rewrite decide_False.
      * by rewrite decide_True.
    + simpl. rewrite Hmesh'. unfold handleZoomToBox. simpl. rewrite Hshown.
      destruct change; [by rewrite decide_True |].
      destruct (decide (labelBoxId st = Some id)) as [E|E].
      * by rewrite decide_False.
      * by rewrite decide_True.
  - reflexivity.
  - intros Hdc Hcc. destruct e; simpl; try done.
    + unfold handleMove. destruct (selected st); [| done].
      destruct (parseFloat (distance st)) as [dist|]; [| done].
      destruct (num_isNaN dist || num_is_zero dist); [done |].
      by destruct (live (moving st) _ || live (rotating st) _).
    + unfold handleRotate. destruct (selected st); [| done].
      by destruct (live (rotating st) _ || live (moving st) _).
    + unfold clickToggle. by destruct (selected st).
    + unfold clickToggle. by destruct (selected st).
    + by destruct (Hdc id0 controls0 change0).
    + rewrite frame_unfold. by destruct (useFrame_all delta (shapes st) _).
  - apply labels_at_most_one.
Qed.

Lemma floating_label_witness :
  Shape_label Sample.palletQ (labelBoxId Demo.labelledQ) (carsOnBoxes Demo.labelledQ)
    = Some ("A1", Some "Car Present")
  /\ (length (filter (λ b, is_Some (Shape_label b (labelBoxId Demo.labelledQ)
                                      (carsOnBoxes Demo.labelledQ)))
                [Sample.palletQ]) <= 1)%nat.
Proof.
  destruct (floating_label parseFloat_decimal
              (run parseFloat_decimal [Select "A1"; ClickToggleCar]
                 (initial [Sample.palletQ]))
              Sample.palletQ [Sample.palletQ] ClickMove true true)
    as (_ & _ & _ & Hshow & _).
  destruct (floating_label parseFloat_decimal Demo.labelledQ Sample.palletQ
              [Sample.palletQ] ClickMove true true)
    as (_ & _ & _ & _ & _ & _ & Hone).
  split.
  - destruct Hshow as [Hshow _]; [reflexivity | by eexists | exact Hshow].
  - apply Hone. apply NoDup_singleton.
Defined.

(** X10: clicking Move or Rotate again changes nothing.  With a box
    selected, a second click on Move gives the state of the first, likewise
    for Rotate, and once one of the two requests has been admitted the other
    button is without effect as well. *)
Theorem repeated_requests {N : Type} `{JsNumber N}
    (parseFloat : string -> option N) (st : AppState N) :
  is_Some (selected st) ->
  handleMove parseFloat (handleMove parseFloat st) = handleMove parseFloat st
  /\ handleRotate (handleRotate st) = handleRotate st
  /\ (handleMove parseFloat st <> st ->
      handleRotate (handleMove parseFloat st) = handleMove parseFloat st)
  /\ (handleRotate st <> st ->
      handleMove parseFloat (handleRotate st) = handleRotate st).
Proof.
  intros Hsel.
  destruct (handleMove_twice parseFloat st Hsel) as [Hmm Hrm].
  destruct (handleRotate_twice parseFloat st Hsel) as [Hrr Hmr].
  auto.
Qed.

Lemma repeated_requests_witness :
  handleRotate (handleMove parseFloat_decimal Sample.readyQ)
    = handleMove parseFloat_decimal Sample.readyQ.
Proof.
  destruct (repeated_requests parseFloat_decimal Sample.readyQ)
    as (_ & _ & Hcross & _); [by eexists |].
  apply Hcross. intros E.
  assert (Hm : moving (handleMove parseFloat_decimal Sample.readyQ) !! "A1"
               = moving Sample.readyQ !! "A1") by (by rewrite E).
  discriminate Hm.
Defined.

(** X11: frames leave an idle scene alone.  With both animation maps empty a
    frame returns the very same state; and in any state reached in a scene
    with distinct ids, a box that has neither a move nor a rotate entry keeps
    its mesh through any number of frames, whatever the other boxes do. *)
Theorem idle_frames {N : Type} `{JsNumber N}
    (parseFloat : string -> option N) (items : list (Box N)) (evs : list (Event N))
    (i : nat) (id : string) (mesh : Mesh N) (delta : N) (deltas : list N) :
  (forall st : AppState N, moving st = ∅ -> rotating st = ∅ -> frame delta st = st)
  /\ (NoDup (box_id <$> items) ->
      let st := run parseFloat evs (initial items) in
      shapes st !! i = Some (id, mesh) ->
      moving st !! id = None -> rotating st !! id = None ->
      shapes (frames deltas st) !! i = Some (id, mesh)).
Proof.
  split.
  - intros st Hm Hr. rewrite frame_unfold. rewrite Hm, Hr, useFrame_all_idle.
    cbn [tick_calls tick_moving tick_rotating flush foldl]. rewrite app_nil_r.
    destruct st. simpl in *. by subst.
  - intros Hnd st Hi Hm Hr.
    assert (Hwf : well_formed st)
      by apply run_well_formed, initial_well_formed, Hnd.
    destruct (frames_track deltas st i id mesh Hwf Hi) as (Hs & _).
    by rewrite Hm, Hr, track_idle in Hs.
Qed.

Lemma idle_frames_witness :
  shapes (frames [1; 1]%Q Sample.readyQ) !! 0%nat = Some ("A1", mkMesh 5 0 5 0)%Q.
Proof.
  destruct (idle_frames parseFloat_decimal [Sample.palletQ]
              [Select "A1"; SetAxis AxisY; SetDistance "5"] 0 "A1"
              (mkMesh 5 0 5 0)%Q 1%Q [1; 1]%Q) as [_ Hkeep].
  apply Hkeep; [apply NoDup_singleton | reflexivity..].
Defined.

(** ** The path of an animation, in exact arithmetic *)

Module ExactPath.

Open Scope Q_scope.

Lemma coordinate_step (type : Kind) (a : Axis) (mesh : Mesh Q) (o : AnimObj Q) (d : Q) :
  (type = KMove -> axis o = Some a) ->
  exists mesh1,
    track_step d (alone type mesh o)
      = (if finished (remaining (advance type d o))
         then (mesh1, None, None) else alone type mesh1 (advance type d o))
    /\ coordinate type a mesh1
       = coordinate type a mesh + step_of type (remaining o) d.
Proof.
  intros Ha. destruct type.
  - eexists. unfold track_step, alone. cbn [fst snd mesh_after after].
    rewrite (Ha eq_refl). split.
    + by destruct (finished (remaining (advance KMove d o))).
    + apply ExactFacts.position_get_add_same.
  - eexists. unfold track_step, alone. cbn [fst snd mesh_after after]. split.
    + by destruct (finished (remaining (advance KRotate d o))).
    + reflexivity.
Qed.

(** Where the coordinate is after some frames that all take time >= 0:
    between the start and the target, and, while the entry is live, at
    the start plus speed times the time that has passed. *)
Lemma track_path (type : Kind) (a : Axis) (deltas : list Q) (mesh : Mesh Q)
    (o : AnimObj Q) :
  (type = KMove -> axis o = Some a) ->
  Forall (λ d, 0 <= d) deltas ->
  let x := track deltas (alone type mesh o) in
  let p := coordinate type a x.1.1 in
  let p0 := coordinate type a mesh in
  (0 <= remaining o -> p0 <= p /\ p <= p0 + remaining o)
  /\ (remaining o <= 0 -> p0 + remaining o <= p /\ p <= p0)
  /\ match entry_of type x with
     | Some o' =>
         p == p0 + Exact.sign (remaining o) * (speed_of type * Qsum deltas)
         /\ p + remaining o' == p0 + remaining o
     | None => True
     end.
Proof.
  intros Ha. revert mesh o Ha.
  induction deltas as [|d ds IH]; intros mesh o Ha Hall x p p0; subst x p p0.
  - cbn [track foldl Qsum foldr].
    assert (E : entry_of type (alone type mesh o) = Some o) by (by destruct type).
    assert (E1 : (alone type mesh o).1.1 = mesh) by (by destruct type).
    rewrite E, E1. repeat split; try lra.
  - apply Forall_cons in Hall as [Hd Hall].
    change (track (d :: ds) (alone type mesh o))
      with (track ds (track_step d (alone type mesh o))).
    destruct (coordinate_step type a mesh o d Ha) as (mesh1 & -> & Hc1).
    pose proof (ExactFacts.speed_pos type) as Hs.
    destruct (ExactFacts.step_no_overshoot type (remaining o) d)
      as (Hpos & Hneg & Habs).
    destruct (Habs Hd) as [Habs1 Habs2]. clear Habs.
    set (step := step_of type (remaining o) d) in *.
    destruct (finished (remaining (advance type d o))) eqn:Hf.
    + rewrite track_idle. cbn [fst snd].
      assert (E : entry_of type (mesh1, None, None) = None) by (by destruct type).
      rewrite E, Hc1. split; [| split; [| done]].
      * intros Hr. specialize (Hpos Hr). cbn [num_sub Exact.number] in Hpos, Habs2.
        rewrite (Qabs_pos _ Hr), (Qabs_pos _ Hpos) in Habs2. lra.
      * intros Hr. specialize (Hneg Hr). cbn [num_sub Exact.number] in Hneg, Habs2.
        rewrite (Qabs_neg _ Hr), (Qabs_neg _ Hneg) in Habs2. lra.
    + assert (Ha' : type = KMove -> axis (advance type d o) = Some a) by exact Ha.
      specialize (IH mesh1 (advance type d o) Ha' Hall). cbn zeta in IH.
      destruct IH as (IHpos & IHneg & IHlive).
      cbn [advance remaining num_sub Exact.number] in IHpos, IHneg, IHlive, Hpos, Hneg,
        Habs1, Habs2.
      fold step in IHpos, IHneg, IHlive, Hpos, Hneg, Habs1, Habs2.
      rewrite Hc1 in IHpos, IHneg, IHlive.
      apply ExactFacts.not_finished_iff in Hf.
      cbn [advance remaining num_sub Exact.number] in Hf. fold step in Hf.
      assert (Heps : 0 < Exact.eps) by reflexivity.
      split; [| split].
      * intros Hr. specialize (Hpos Hr). specialize (IHpos Hpos).
        rewrite (Qabs_pos _ Hr), (Qabs_pos _ Hpos) in Habs2. lra.
      * intros Hr. specialize (Hneg Hr). specialize (IHneg Hneg).
        rewrite (Qabs_neg _ Hr), (Qabs_neg _ Hneg) in Habs2. lra.
      * destruct (entry_of type _) as [o'|]; [| done].
        destruct IHlive as [IHspeed IHsum]. split; [| lra].
        (* the step was not clamped, and the sign is kept *)
        destruct (Q.min_spec (Qabs (remaining o)) (speed_of type * d))
          as [[Hlt Hmin]|[Hle Hmin]]; rewrite Hmin in Habs1; [lra |].
        assert (Hstep : step == Exact.sign (remaining o) * (speed_of type * d)).
        { unfold step, step_of.
          cbn [num_mul Math_sign Math_min Math_abs Exact.number]. by rewrite Hmin. }
        assert (Hsign : Exact.sign (remaining o - step) = Exact.sign (remaining o)).
        { destruct (ExactFacts.sign_cases (remaining o))
            as [(Hx & Es & Ea)|[(Hx & Es & Ea)|(Hx & Es & Ea)]];
            rewrite Es in Hstep |- *; rewrite Ea in Habs1, Hle;
            destruct (ExactFacts.sign_cases (remaining o - step))
              as [(Hy & Et & Eb)|[(Hy & Et & Eb)|(Hy & Et & Eb)]];
            rewrite Eb in Habs1, Hf; try done; exfalso; lra. }
        rewrite Hsign in IHspeed. cbn [Qsum foldr]. fold (Qsum ds).
        rewrite IHspeed, Hstep. ring.
Qed.

End ExactPath.

(** ** The path of an animation, in the running application *)

(** A live entry of a shown box in a reachable state is alone, and the
    frames act on the box as [track] says. *)
Lemma frames_alone (parseFloat : string -> option Q) (items : list (Box Q))
    (evs : list (Event Q)) (type : Kind) (i : nat) (id : string) (mesh : Mesh Q)
    (o : AnimObj Q) (deltas : list Q) :
  NoDup (box_id <$> items) ->
  let st := run parseFloat evs (initial items) in
  shapes st !! i = Some (id, mesh) ->
  entries type st !! id = Some o ->
  shapes (frames deltas st) !! i = Some (id, (track deltas (alone type mesh o)).1.1)
  /\ entries type (frames deltas st) !! id
     = entry_of type (track deltas (alone type mesh o)).
Proof.
  intros Hnd st Hi Ho.
  assert (Hwf : well_formed st)
    by apply run_well_formed, initial_well_formed, Hnd.
  assert (Hex : exclusive st).
  { apply exclusive_run. intros k. left. apply lookup_empty. }
  destruct (frames_track deltas st i id mesh Hwf Hi) as (Hs & Hm & Hr).
  destruct type; simpl in Ho |- *.
  - destruct (Hex id) as [Hn|Hn]; [congruence |].
    rewrite Ho, Hn in Hs, Hm. done.
  - destruct (Hex id) as [Hn|Hn]; [| congruence].
    rewrite Ho, Hn in Hs, Hr. done.
Qed.

(** X12: no overshoot along the whole path.  In exact arithmetic, for a live
    entry of a shown box and frames whose elapsed times are not negative,
    the animated coordinate (the position along the entry's axis, or the Y
    rotation) is at all times between where it is now and that plus
    [remaining]. *)
Theorem animation_stays_between (parseFloat : string -> option Q)
    (items : list (Box Q)) (evs : list (Event Q)) (type : Kind) (i : nat)
    (id : string) (mesh : Mesh Q) (o : AnimObj Q) (a : Axis) (deltas : list Q) :
  NoDup (box_id <$> items) ->
  let st := run parseFloat evs (initial items) in
  shapes st !! i = Some (id, mesh) ->
  entries type st !! id = Some o ->
  (type = KMove -> axis o = Some a) ->
  Forall (λ d, 0 <= d)%Q deltas ->
  exists mesh',
    shapes (frames deltas st) !! i = Some (id, mesh')
    /\ (0 <= remaining o ->
        coordinate type a mesh <= coordinate type a mesh'
        /\ coordinate type a mesh' <= coordinate type a mesh + remaining o)%Q
    /\ (remaining o <= 0 ->
        coordinate type a mesh + remaining o <= coordinate type a mesh'
        /\ coordinate type a mesh' <= coordinate type a mesh)%Q.
Proof.
  intros Hnd st Hi Ho Ha Hall.
  destruct (frames_alone parseFloat items evs type i id mesh o deltas Hnd Hi Ho)
    as [Hs _].
  destruct (ExactPath.track_path type a deltas mesh o Ha Hall) as (Hpos & Hneg & _).
  eexists. split; [exact Hs | split; [exact Hpos | exact Hneg]].
Qed.

Lemma animation_stays_between_witness :
  exists mesh',
    shapes (frames [2; 2]%Q (handleMove parseFloat_decimal Sample.readyQ)) !! 0%nat
      = Some ("A1", mesh')
    /\ (0 <= position_y mesh' /\ position_y mesh' <= 0 + 5)%Q.
Proof.
  destruct (animation_stays_between parseFloat_decimal [Sample.palletQ]
              [Select "A1"; SetAxis AxisY; SetDistance "5"; ClickMove] KMove 0 "A1"
              (mkMesh 5 0 5 0)%Q (mkAnimObj (Some AxisY) 5%Q "A1") AxisY [2; 2]%Q)
    as (mesh' & Hs & Hpos & _).
  - apply NoDup_singleton.
  - reflexivity.
  - reflexivity.
  - reflexivity.
  - repeat constructor; discriminate.
  - exists mesh'. split; [exact Hs |]. apply Hpos. discriminate.
Defined.

(** X13: constant speed.  In exact arithmetic, with elapsed times that are
    not negative, as long as the entry is still live the animated
    coordinate has advanced by exactly speed times the total time of the
    frames, in the direction of [remaining], with speed 1 for a move and
    [Math.PI] for a rotation; the frame rate does not matter. *)
Theorem animation_speed (parseFloat : string -> option Q)
    (items : list (Box Q)) (evs : list (Event Q)) (type : Kind) (i : nat)
    (id : string) (mesh : Mesh Q) (o o' : AnimObj Q) (a : Axis) (deltas : list Q) :
  NoDup (box_id <$> items) ->
  let st := run parseFloat evs (initial items) in
  shapes st !! i = Some (id, mesh) ->
  entries type st !! id = Some o ->
  (type = KMove -> axis o = Some a) ->
  Forall (λ d, 0 <= d)%Q deltas ->
  entries type (frames deltas st) !! id = Some o' ->
  exists mesh',
    shapes (frames deltas st) !! i = Some (id, mesh')
    /\ (coordinate type a mesh'
        == coordinate type a mesh
           + Exact.sign (remaining o)
             * ((match type with KMove => 1 | KRotate => Exact.PI end) * Qsum deltas))%Q
    /\ (coordinate type a mesh' + remaining o'
        == coordinate type a mesh + remaining o)%Q.
Proof.
  intros Hnd st Hi Ho Ha Hall Hlive.
  destruct (frames_alone parseFloat items evs type i id mesh o deltas Hnd Hi Ho)
    as [Hs He].
  destruct (ExactPath.track_path type a deltas mesh o Ha Hall) as (_ & _ & Hpath).
  fold st in He. rewrite Hlive in He. rewrite <- He in Hpath.
  destruct Hpath as [Hspeed Hsum].
  eexists. split; [exact Hs | split; [| exact Hsum]].
  rewrite Hspeed. by destruct type.
Qed.

Lemma animation_speed_witness :
  exists mesh',
    shapes (frames [1 # 2; 3 # 2]%Q (handleMove parseFloat_decimal Sample.readyQ))
      !! 0%nat = Some ("A1", mesh')
    /\ (position_y mesh' == 0 + 1 * (1 * ((1 # 2) + ((3 # 2) + 0))))%Q.
Proof.
  destruct (animation_speed parseFloat_decimal [Sample.palletQ]
              [Select "A1"; SetAxis AxisY; SetDistance "5"; ClickMove] KMove 0 "A1"
              (mkMesh 5 0 5 0)%Q (mkAnimObj (Some AxisY) 5%Q "A1")
              (mkAnimObj (Some AxisY) (5 - 1 * Qmin (Qabs 5) (1 * (1 # 2))
                                       - 1 * Qmin (Qabs (5 - 1 * Qmin (Qabs 5) (1 * (1 # 2))))
                                               (1 * (3 # 2)))%Q "A1")
              AxisY [1 # 2; 3 # 2]%Q)
    as (mesh' & Hs & Hspeed & _).
  - apply NoDup_singleton.
  - reflexivity.
  - reflexivity.
  - reflexivity.
  - repeat constructor; discriminate.
  - reflexivity.
  - exists mesh'. split; [exact Hs | exact Hspeed].
Defined.

(** ** Frames that run before the commit, in exact arithmetic *)

Lemma axis_advances {N : Type} `{JsNumber N} (type : Kind) (deltas : list N)
    (o : AnimObj N) :
  axis (advances type deltas o) = axis o.
Proof.
  revert o. induction deltas as [|d ds IH]; intros o; [done |].
  exact (IH (advance type d o)).
Qed.

(** An entry on its own that stays in its map: the coordinate plus what
    remains is constant, what remains keeps its sign and does not grow, and
    from the first frame that calls [resolve] on, every frame calls it. *)
Lemma frames_before_commit_path (type : Kind) (a : Axis) (i : nat) (id : string)
    (deltas : list Q) (st : AppState Q) (mesh : Mesh Q) (o : AnimObj Q) :
  well_formed st ->
  shapes st !! i = Some (id, mesh) ->
  entries type st !! id = Some o ->
  entries (match type with KMove => KRotate | KRotate => KMove end) st !! id = None ->
  (type = KMove -> axis o = Some a) ->
  Forall (λ d, 0 <= d)%Q deltas ->
  exists mesh',
    shapes (frames_before_commit deltas st) !! i = Some (id, mesh')
    /\ entries (match type with KMove => KRotate | KRotate => KMove end)
         (frames_before_commit deltas st) !! id = None
    /\ (coordinate type a mesh' + remaining (advances type deltas o)
        == coordinate type a mesh + remaining o)%Q
    /\ (Qabs (remaining (advances type deltas o)) <= Qabs (remaining o))%Q
    /\ (0 <= remaining o -> 0 <= remaining (advances type deltas o))%Q
    /\ (remaining o <= 0 -> remaining (advances type deltas o) <= 0)%Q
    /\ (finished (remaining o) = true ->
        finished (remaining (advances type deltas o)) = true
        /\ resolved_in type deltas o = length deltas).
Proof.
  revert st mesh o.
  induction deltas as [|d ds IH]; intros st mesh o Hwf Hi Ho Hother Ha Hall.
  - exists mesh. cbn. repeat split; try done; lra.
  - apply Forall_cons in Hall as [Hd Hall].
    change (frames_before_commit (d :: ds) st)
      with (frames_before_commit ds (frame_callbacks d st).1).
    change (advances type (d :: ds) o) with (advances type ds (advance type d o)).
    destruct (frame_callbacks_track type d st i id mesh Hwf Hi) as (Hs & He & _).
    destruct (frame_callbacks_track
                (match type with KMove => KRotate | KRotate => KMove end)
                d st i id mesh Hwf Hi) as (_ & He' & _).
    rewrite Ho in He. rewrite Hother in He'. cbn [fmap option_fmap option_map] in He, He'.
    set (mesh1 := mesh_after d mesh (moving st !! id) (rotating st !! id)) in *.
    assert (Hc1 : (coordinate type a mesh1
                   == coordinate type a mesh + step_of type (remaining o) d)%Q).
    { unfold mesh1. destruct type; simpl in Ho, Hother; rewrite Ho, Hother.
      - cbn [mesh_after coordinate]. rewrite (Ha eq_refl).
        by rewrite ExactFacts.position_get_add_same.
      - cbn [mesh_after coordinate rotation_add rotation_y num_add Exact.number].
        reflexivity. }
    destruct (IH _ mesh1 (advance type d o) (frame_callbacks_well_formed d st Hwf)
                Hs He He' Ha Hall)
      as (mesh' & IHs & IHo & IHsum & IHabs & IHpos & IHneg & IHfin).
    destruct (ExactFacts.step_no_overshoot type (remaining o) d)
      as (Hpos & Hneg & Habs).
    destruct (Habs Hd) as [_ Hshrink]. clear Habs.
    cbn [advance remaining num_sub Exact.number] in IHsum, IHabs, IHpos, IHneg, IHfin
      |- *.
    cbn [num_sub Exact.number] in Hpos, Hneg, Hshrink.
    set (step := step_of type (remaining o) d) in *.
    exists mesh'. split; [exact IHs | split; [exact IHo |]].
    split; [rewrite IHsum, Hc1; ring |].
    split; [lra |]. split; [auto |]. split; [auto |].
    intros Hf.
    assert (Hf1 : finished (remaining o - step)%Q = true).
    { apply ExactFacts.finished_iff. apply ExactFacts.finished_iff in Hf. lra. }
    destruct (IHfin Hf1) as [Hf' Hcount]. split; [exact Hf' |].
    cbn [resolved_in advance remaining num_sub Exact.number length].
    fold step. rewrite Hf1, Hcount. reflexivity.
Qed.

(** X14: a late commit does no harm, in exact arithmetic.  Take a scene
    with distinct box ids and frames with non-negative elapsed times that
    keep running before React has committed.  A live entry of a shown box
    stays in its map; the animated coordinate plus [remaining] stays what it
    was, and [remaining] keeps its sign and never grows in magnitude, so the
    box does not pass its target; and once a frame has left
    |remaining| < 0.001 every further frame calls [resolve] again and
    leaves the box within 0.001 of the target. *)
Theorem late_commit (parseFloat : string -> option Q)
    (items : list (Box Q)) (evs : list (Event Q)) (type : Kind) (i : nat)
    (id : string) (mesh : Mesh Q) (o : AnimObj Q) (a : Axis) (late more : list Q) :
  NoDup (box_id <$> items) ->
  let st := run parseFloat evs (initial items) in
  shapes st !! i = Some (id, mesh) ->
  entries type st !! id = Some o ->
  (type = KMove -> axis o = Some a) ->
  Forall (λ d, 0 <= d)%Q late ->
  Forall (λ d, 0 <= d)%Q more ->
  let sb := frames_before_commit late st in
  let sc := frames_before_commit more sb in
  exists mesh_b o_b mesh_c o_c,
    shapes sb !! i = Some (id, mesh_b)
    /\ entries type sb !! id = Some o_b
    /\ shapes sc !! i = Some (id, mesh_c)
    /\ entries type sc !! id = Some o_c
    /\ (coordinate type a mesh_b + remaining o_b
        == coordinate type a mesh + remaining o)%Q
    /\ (coordinate type a mesh_c + remaining o_c
        == coordinate type a mesh + remaining o)%Q
    /\ (Qabs (remaining o_c) <= Qabs (remaining o_b)
        /\ Qabs (remaining o_b) <= Qabs (remaining o))%Q
    /\ (0 <= remaining o -> 0 <= remaining o_b /\ 0 <= remaining o_c)%Q
    /\ (remaining o <= 0 -> remaining o_b <= 0 /\ remaining o_c <= 0)%Q
    /\ (finished (remaining o_b) = true ->
        finished (remaining o_c) = true
        /\ resolve_count type id sc = (resolve_count type id sb + length more)%nat
        /\ (Qabs (coordinate type a mesh + remaining o - coordinate type a mesh_c)
            < Exact.eps)%Q).
Proof.
  intros Hnd st Hi Ho Ha Hlate Hmore sb sc.
  assert (Hwf : well_formed st)
    by apply run_well_formed, initial_well_formed, Hnd.
  assert (Hex : exclusive st).
  { apply exclusive_run. intros k. left. apply lookup_empty. }
  assert (Hother : entries (match type with KMove => KRotate | KRotate => KMove end) st
                     !! id = None).
  { destruct type; simpl in Ho |- *; destruct (Hex id); congruence. }
  assert (Hwfb : well_formed sb) by apply frames_before_commit_well_formed, Hwf.
  destruct (frames_before_commit_track type late st i id mesh o Hwf Hi Ho)
    as (Heb & _ & _).
  destruct (frames_before_commit_path type a i id late st mesh o
              Hwf Hi Ho Hother Ha Hlate)
    as (mesh_b & Hsb & Hob & Hsum_b & Habs_b & Hpos_b & Hneg_b & _).
  fold sb in Heb, Hsb, Hob.
  set (o_b := advances type late o) in *.
  assert (Hab : type = KMove -> axis o_b = Some a).
  { intros Ht. unfold o_b. rewrite axis_advances. by apply Ha. }
  destruct (frames_before_commit_track type more sb i id mesh_b o_b Hwfb Hsb Heb)
    as (Hec & Hcount & _).
  destruct (frames_before_commit_path type a i id more sb mesh_b o_b
              Hwfb Hsb Heb Hob Hab Hmore)
    as (mesh_c & Hsc & _ & Hsum_c & Habs_c & Hpos_c & Hneg_c & Hfin).
  fold sc in Hec, Hcount, Hsc.
  set (o_c := advances type more o_b) in *.
  exists mesh_b, o_b, mesh_c, o_c.
  split; [exact Hsb | split; [exact Heb | split; [exact Hsc | split; [exact Hec |]]]].
  split; [exact Hsum_b | split; [by rewrite Hsum_c |]].
  split; [by split |]. split; [by auto |]. split; [by auto |].
  intros Hf. destruct (Hfin Hf) as [Hfc Hall]. split; [exact Hfc | split].
  - by rewrite Hcount, Hall.
  - apply ExactFacts.finished_iff in Hfc.
    apply Qabs_Qlt_condition in Hfc. apply Qabs_Qlt_condition. lra.
Qed.

Lemma late_commit_witness :
  resolve_count KMove "A1"
    (frames_before_commit [1; 1]%Q
       (frames_before_commit [2; 2; 2]%Q (handleMove parseFloat_decimal Sample.readyQ)))
  = (resolve_count KMove "A1"
       (frames_before_commit [2; 2; 2]%Q (handleMove parseFloat_decimal Sample.readyQ))
     + 2)%nat.
Proof.
  destruct (late_commit parseFloat_decimal [Sample.palletQ]
              [Select "A1"; SetAxis AxisY; SetDistance "5"; ClickMove] KMove 0 "A1"
              (mkMesh 5 0 5 0)%Q (mkAnimObj (Some AxisY) 5%Q "A1") AxisY
              [2; 2; 2]%Q [1; 1]%Q)
    as (mesh_b & o_b & mesh_c & o_c & _ & Heb & _ & _ & _ & _ & _ & _ & _ & Hfin).
  - apply NoDup_singleton.
  - reflexivity.
  - reflexivity.
  - reflexivity.
  - repeat constructor; discriminate.
  - repeat constructor; discriminate.
  - assert (Hf : finished (remaining o_b) = true).
    { vm_compute in Heb. injection Heb as <-. reflexivity. }
    destruct (Hfin Hf) as (_ & Hcount & _). exact Hcount.
Defined.

(** ** Colours, once more *)

(** X15: the colour of a box depends on its own flags only, and the error
    flag can be taken back.  Toggling the car or error flag of another id
    leaves the colour as it is; toggling the error flag of the box twice
    gives the colour it had, at every blink phase; and with the error flag
    off the colour does not depend on the blink phase at all. *)
Theorem Shape_color_own_flags {N : Type} `{JsNumber N} (box : Box N)
    (isSelected : bool) (carsOnBoxes errorBoxes : gmap string bool)
    (blink blink' : bool) (other : string) :
  (other <> box_id box ->
   Shape_color box isSelected (toggle other carsOnBoxes) (toggle other errorBoxes) blink
     = Shape_color box isSelected carsOnBoxes errorBoxes blink)
  /\ Shape_color box isSelected carsOnBoxes
       (toggle (box_id box) (toggle (box_id box) errorBoxes)) blink
     = Shape_color box isSelected carsOnBoxes errorBoxes blink
  /\ (flag errorBoxes (box_id box) = false ->
      Shape_color box isSelected carsOnBoxes errorBoxes blink
        = Shape_color box isSelected carsOnBoxes errorBoxes blink'
      /\ Shape_color box isSelected carsOnBoxes (toggle (box_id box) errorBoxes) true
         = "firebrick").
Proof.
  split; [| split].
  - intros Hne. unfold Shape_color. rewrite !flag_toggle.
    by rewrite !decide_False by done.
  - unfold Shape_color. rewrite !flag_toggle, !decide_True by done.
    by rewrite negb_involutive.
  - intros Hoff. unfold Shape_color. rewrite flag_toggle, decide_True by done.
    by rewrite Hoff.
Qed.

Lemma Shape_color_own_flags_witness :
  Shape_color Sample.palletQ false ∅ (toggle "A1" ∅) true = "firebrick"
  /\ Shape_color Sample.palletQ false (toggle "B2" ∅) (toggle "B2" ∅) true = "limegreen".
Proof.
  destruct (Shape_color_own_flags Sample.palletQ false ∅ ∅ true false "B2")
    as (Hother & _ & Hoff).
  split.
  - apply Hoff. reflexivity.
  - rewrite Hother; [reflexivity | discriminate].
Defined.

(** X16: the earlier version of [Shape] in [src/src/App.jsx] puts the
    selection first: a selected box is always yellow there.  The two
    versions give the same colour whenever the box has no car on it and the
    error blink is not on; with a car on an unselected box the earlier
    version answers 'orange' and the later one 'lightgray'. *)
Theorem Shape_color_versions {N : Type} `{JsNumber N} (box : Box N)
    (isSelected : bool) (carsOnBoxes errorBoxes : gmap string bool) (blink : bool) :
  AppJsx.Shape_color box true carsOnBoxes = "yellow"
  /\ (flag errorBoxes (box_id box) && blink = false ->
      (flag carsOnBoxes (box_id box) = false \/ isSelected = true ->
       Shape_color box isSelected carsOnBoxes errorBoxes blink
         = AppJsx.Shape_color box isSelected carsOnBoxes)
      /\ (flag carsOnBoxes (box_id box) = true -> isSelected = false ->
          Shape_color box isSelected carsOnBoxes errorBoxes blink = "lightgray"
          /\ AppJsx.Shape_color box isSelected carsOnBoxes = "orange")).
Proof.
  split; [reflexivity |]. intros Hquiet.
  rewrite Shape_color_cases, Hquiet. unfold AppJsx.Shape_color. split.
  - intros [Hcar| ->]; [by rewrite Hcar | done].
  - intros Hcar ->. by rewrite Hcar.
Qed.

Lemma Shape_color_versions_witness :
  Shape_color Sample.palletQ false Sample.on_A1 ∅ true = "lightgray"
  /\ AppJsx.Shape_color Sample.palletQ false Sample.on_A1 = "orange".
Proof.
  destruct (Shape_color_versions Sample.palletQ false Sample.on_A1 ∅ true)
    as [_ Hrel].
  destruct Hrel as [_ Hcar]; [reflexivity |].
  apply Hcar; reflexivity.
Defined.

(** ** The circle *)

(** X17: [Circle] samples segments + 1 points, and none when [segments] is
    negative; every point has the height of the centre; and in exact
    arithmetic, for any cosine and sine with cos² + sin² = 1 and a nonzero
    [segments] (with 0 the one angle is 0 / 0), every point is at distance
    [radius] from the centre in the horizontal plane. *)
Theorem Circle_points_spec :
  (forall (N : Type) (HN : JsNumber N) (Math_cos Math_sin : N -> N)
          (center : N * N * N) (radius : N) (segments : Z),
     length (Circle_points Math_cos Math_sin center radius segments)
       = Z.to_nat (segments + 1)
     /\ Forall (λ p, p.1.2 = center.1.2)
          (Circle_points Math_cos Math_sin center radius segments)
     /\ ((segments < 0)%Z ->
         Circle_points Math_cos Math_sin center radius segments = []))
  /\ (forall (Math_cos Math_sin : Q -> Q) (center : Q * Q * Q) (radius : Q)
             (segments : Z),
        (forall t, Math_cos t * Math_cos t + Math_sin t * Math_sin t == 1)%Q ->
        segments <> 0%Z ->
        Forall (λ p, (p.1.1 - center.1.1) * (p.1.1 - center.1.1)
                     + (p.2 - center.2) * (p.2 - center.2)
                     == radius * radius)%Q
          (Circle_points Math_cos Math_sin center radius segments)).
Proof.
  split.
  - intros N HN Math_cos Math_sin center radius segments. unfold Circle_points.
    split; [by rewrite length_fmap, length_seq | split].
    + apply Forall_fmap, Forall_forall. by intros i _.
    + intros Hneg. by replace (Z.to_nat (segments + 1)) with 0%nat by lia.
  - intros Math_cos Math_sin center radius segments Hunit _. unfold Circle_points.
    apply Forall_fmap, Forall_forall. intros i _.
    unfold compose, Circle_point. cbn [fst snd num_add num_mul Exact.number].
    match goal with |- context [Math_cos ?t] => specialize (Hunit t);
      set (c := Math_cos t) in *; set (s := Math_sin t) in * end.
    transitivity (radius * radius * (c * c + s * s))%Q; [ring |].
    rewrite Hunit. ring.
Qed.

Lemma Circle_points_spec_witness :
  Forall (λ p, (p.1.1 - 3) * (p.1.1 - 3) + (p.2 - 4) * (p.2 - 4) == 2 * 2)%Q
    (Circle_points (λ t, (1 - t * t) / (1 + t * t))%Q (λ t, 2 * t / (1 + t * t))%Q
       (3, 0, 4)%Q 2%Q 8)
  /\ Circle_points (λ t, (1 - t * t) / (1 + t * t))%Q (λ t, 2 * t / (1 + t * t))%Q
       (3, 0, 4)%Q 2%Q (-1) = [].
Proof.
  destruct Circle_points_spec as [Hgen Hexact]. split.
  - apply (Hexact (λ t, (1 - t * t) / (1 + t * t))%Q (λ t, 2 * t / (1 + t * t))%Q
             (3, 0, 4)%Q 2%Q 8%Z); [| discriminate].
    intros t. field. nra.
  - destruct (Hgen Q _ (λ t, (1 - t * t) / (1 + t * t))%Q (λ t, 2 * t / (1 + t * t))%Q
                (3, 0, 4)%Q 2%Q (-1)%Z) as (_ & _ & Hneg).
    apply Hneg. lia.
Defined.

(** ** Boxes do not interfere *)

(** X18: what the frames do to a box depends on that box alone.  Take two
    reachable states, possibly of different scenes with distinct ids each, in
    which a box of the same id has the same mesh and the same move and
    rotate entries: after the same frames the box has the same mesh and
    the same entries in both, whatever else is animated. *)
Theorem animations_independent {N : Type} `{JsNumber N}
    (parseFloat : string -> option N) (items1 items2 : list (Box N))
    (evs1 evs2 : list (Event N)) (i1 i2 : nat) (id : string) (mesh : Mesh N)
    (deltas : list N) :
  NoDup (box_id <$> items1) -> NoDup (box_id <$> items2) ->
  let st1 := run parseFloat evs1 (initial items1) in
  let st2 := run parseFloat evs2 (initial items2) in
  shapes st1 !! i1 = Some (id, mesh) -> shapes st2 !! i2 = Some (id, mesh) ->
  moving st1 !! id = moving st2 !! id ->
  rotating st1 !! id = rotating st2 !! id ->
  shapes (frames deltas st1) !! i1 = shapes (frames deltas st2) !! i2
  /\ moving (frames deltas st1) !! id = moving (frames deltas st2) !! id
  /\ rotating (frames deltas st1) !! id = rotating (frames deltas st2) !! id.
Proof.
  intros Hnd1 Hnd2 st1 st2 Hi1 Hi2 Hm Hr.
  assert (Hwf1 : well_formed st1)
    by apply run_well_formed, initial_well_formed, Hnd1.
  assert (Hwf2 : well_formed st2)
    by apply run_well_formed, initial_well_formed, Hnd2.
  destruct (frames_track deltas st1 i1 id mesh Hwf1 Hi1) as (Hs1 & Hm1 & Hr1).
  destruct (frames_track deltas st2 i2 id mesh Hwf2 Hi2) as (Hs2 & Hm2 & Hr2).
  rewrite Hs1, Hm1, Hr1, Hs2, Hm2, Hr2, Hm, Hr. done.
Qed.

Lemma animations_independent_witness :
  shapes (frames [2; 2]%Q (handleMove parseFloat_decimal Sample.readyQ)) !! 0%nat
  = shapes (frames [2; 2]%Q
              (run parseFloat_decimal
                 [Select "A1"; SetAxis AxisY; SetDistance "5"; ClickMove;
                  Select "B2"; ClickRotate]
                 (initial [cell_box Sample.floorQ 1 1; Sample.palletQ]))) !! 1%nat.
Proof.
  destruct (animations_independent parseFloat_decimal [Sample.palletQ]
              [cell_box Sample.floorQ 1 1; Sample.palletQ]
              [Select "A1"; SetAxis AxisY; SetDistance "5"; ClickMove]
              [Select "A1"; SetAxis AxisY; SetDistance "5"; ClickMove;
               Select "B2"; ClickRotate]
              0 1 "A1" (mkMesh 5 0 5 0)%Q [2; 2]%Q)
    as (Hsame & _).
  - apply NoDup_singleton.
  - apply NoDup_cons. split; [| apply NoDup_singleton].
    intros Hin%list_elem_of_singleton. discriminate Hin.
  - reflexivity.
  - reflexivity.
  - reflexivity.
  - reflexivity.
  - exact Hsame.
Defined.
